(** * borgbackup.py: snapshot retention and the backup run

    A shallow embedding of [src/borgbackup.py].  Python integers are [Z],
    Python lists are [list], the configuration dictionaries are [gmap]s keyed
    by strings, exceptions are an explicit [result] type, and the calls that
    leave the process (subprocesses, psutil, the file system) are answered by
    a [World] that sees the history of earlier calls.  The [logging] calls
    ([info], [warn], [debug]) are left out: the warnings a run records are
    its [messages] list.  A configuration value of the wrong JSON type is a
    [TypeError] where a string or a list is first needed. *)

From Stdlib Require Import ZArith Lia Ascii.
From stdpp Require Import base list strings gmap pretty.

(** ** Exceptions *)

(** The three [raise RuntimeError(...)] of the source, with the values their
    messages are formatted from. *)
Inductive runtime_error :=
  | NotAMountpoint (path : string)
  | AdvisedMountpoint (path : string)
  | MatchingPartitions (found : nat).

Inductive exn :=
  | ValueError
  | KeyError (key : string)
  | IndexError
  | TypeError
  | OSError
  | ReError
  | RuntimeError (why : runtime_error)
  | CalledProcessError (cmd : list string) (returncode : Z).

Inductive result (A : Type) :=
  | Ok (a : A)
  | Raise (e : exn).
Arguments Ok {A} a.
Arguments Raise {A} e.

(** ** Retention: [closest] and the selection loop of [prune_snapshots] *)

Local Open Scope Z_scope.

(** The keys of the [time_intervals] dictionary. *)
Inductive interval := day | week | month.

Definition time_intervals (i : interval) : Z :=
  match i with
  | day => 60*60*24
  | week => 60*60*24*7
  | month => 60*60*24*7*4
  end.

(** One iteration of the [for current in list] loop of [closest]; the
    accumulator is the pair [(best, best_distance)]. *)
Definition closest_step (target : Z) (acc : Z * Z) (current : Z) : Z * Z :=
  let distance := Z.abs (target - current) in
  if distance <? snd acc then (current, distance) else acc.

Definition closest_scan (target : Z) (acc : Z * Z) (list : list Z) : Z * Z :=
  foldl (closest_step target) acc list.

(** [closest]: [best = 0], [best_distance = target], the scan, and the final
    [if best != 0: return best] (otherwise the function falls off its end and
    returns [None]). *)
Definition closest (target : Z) (list : list Z) : option Z :=
  let best := fst (closest_scan target (0, target) list) in
  if best =? 0 then None else Some best.

(** [list.remove(x)]: drops the first occurrence, [None] stands for the
    [ValueError] Python raises when there is none. *)
Fixpoint list_remove (x : Z) (l : list Z) : option (list Z) :=
  match l with
  | [] => None
  | y :: l' => if x =? y then Some l' else (y ::.) <$> list_remove x l'
  end.

(** The [for next_snapshot in wanted_snapshots] loop.  [last_kept_timestamp]
    is passed on unchanged: the source assigns it once, before the loop. *)
Fixpoint select_loop (wanted : list interval) (last_kept_timestamp : Z)
    (actual_timestamps keep_timestamps : list Z) : result (list Z) :=
  match wanted with
  | [] => Ok keep_timestamps
  | next_snapshot :: wanted' =>
      let target_timestamp := last_kept_timestamp - time_intervals next_snapshot in
      match closest target_timestamp actual_timestamps with
      | None => Ok keep_timestamps
      | Some closest_timestamp =>
          if closest_timestamp =? 0 then Ok keep_timestamps
          else match list_remove closest_timestamp actual_timestamps with
               | None => Raise ValueError
               | Some actual' =>
                   select_loop wanted' last_kept_timestamp actual'
                     (keep_timestamps ++ [closest_timestamp])
               end
      end
  end.

Definition select (wanted : list interval) (now : Z) (actual_timestamps : list Z)
    : result (list Z) :=
  select_loop wanted now actual_timestamps [].

Definition daily : nat := 7.
Definition weekly : nat := 4.
Definition monthly : nat := 6.

Definition wanted_snapshots : list interval :=
  replicate daily day ++ replicate weekly week ++ replicate monthly month.

(** The keep list [prune_snapshots] computes from the parsed timestamps. *)
Definition keep_timestamps (now : Z) (actual_timestamps : list Z) : result (list Z) :=
  select wanted_snapshots now actual_timestamps.

(** What the deletion loop leaves: the entries whose timestamp satisfies
    [t in keep_timestamps], in their listing order. *)
Definition surviving (keep : list Z) (timestamps : list Z) : list Z :=
  filter (λ t, t ∈ keep) timestamps.

(** The selection as section 4.1 of the specification words it, with the
    cursor advanced to each kept timestamp.  Only used for comparison with
    [select_loop]. *)
Fixpoint spec_select_loop (wanted : list interval) (anchor : Z)
    (pool keep : list Z) : list Z :=
  match wanted with
  | [] => keep
  | label :: wanted' =>
      match closest (anchor - time_intervals label) pool with
      | None => keep
      | Some c =>
          match list_remove c pool with
          | None => keep
          | Some pool' => spec_select_loop wanted' c pool' (keep ++ [c])
          end
      end
  end.

(** ** The run: configuration, outside world, state *)

(** The values a configuration dictionary holds: what [json.loads] delivers
    for the documented fields and what the run stores itself. *)
Inductive pyval :=
  | PNone
  | PBool (b : bool)
  | PStr (s : string)
  | PList (l : list string).

Global Instance pyval_eq_dec : EqDecision pyval.
Proof. solve_decision. Defined.

(** Python truthiness, as [if not snapshot_dir] and [if config["nice"]] use it. *)
Definition truthy (v : pyval) : bool :=
  match v with
  | PNone => false
  | PBool b => b
  | PStr s => negb (String.eqb s "")
  | PList l => negb (bool_decide (l = []))
  end.

Definition getitem (config : gmap string pyval) (key : string) : result pyval :=
  match config !! key with
  | Some v => Ok v
  | None => Raise (KeyError key)
  end.

(** Places that need a [str] (path functions, [subprocess] arguments) raise
    [TypeError] on anything else. *)
Definition as_str (v : pyval) : result string :=
  match v with
  | PStr s => Ok s
  | _ => Raise TypeError
  end.

(** Iterating [config["excludes"]]: a list yields its items, a string its
    characters. *)
Definition as_items (v : pyval) : result (list string) :=
  match v with
  | PList l => Ok l
  | PStr s => Ok ((λ a, String a EmptyString) <$> String.list_ascii_of_string s)
  | _ => Raise TypeError
  end.

(** [psutil]'s partition records. *)
Record sdiskpart := { device : string; mountpoint : string; fstype : string }.

(** Calls that leave the process, in the order they are made. *)
Inductive call :=
  | DiskPartitions
  | IsMount (path : string)
  | Realpath (path : string)
  | Mkdir (path : string)
  | Listdir (path : string)
  | Run (command : list string) (cwd : option string) (BORG_REPO : option string).

(** What [subprocess.run] comes back with: a finished process (return code
    and the lines of its captured output) or a failure to start it. *)
Inductive completed :=
  | Completed (returncode : Z) (stdout_lines : list string)
  | NotStarted.

(** The outside world answers each call from the calls made so far.  The two
    regular-expression steps of the snapshot pruning belong to Python's [re]
    and [int]: compiling [^NAME-(\d+)$] for a subvolume name (which can fail)
    and reading the timestamp off a snapshot name. *)
Record World := {
  disk_partitions : list call → list sdiskpart;
  is_mountpoint : list call → string → bool;
  realpath : list call → string → string;
  listdir : list call → string → result (list string);
  run : list call → list string → option string → option string → completed;
  subvolume_regex : string → result (string → bool);
  snapshot_timestamp : string → result Z
}.

Record Args := {
  backup_only : option (list string);
  snapshot_dir : string;
  with_borg : string;
  with_btrfs : string;
  nice : option bool;
  backup_dir : string
}.

(** The run's state: the [messages] list and the calls made. *)
Record state := State { messages : list string; history : list call }.

Definition M (A : Type) : Type := state → result A * state.

Definition ret {A} (a : A) : M A := λ st, (Ok a, st).

Definition bind {A B} (m : M A) (k : A → M B) : M B :=
  λ st, match m st with
        | (Ok a, st') => k a st'
        | (Raise e, st') => (Raise e, st')
        end.

Definition lift {A} (r : result A) : M A := λ st, (r, st).

Definition raise {A} (e : exn) : M A := lift (Raise e).

Declare Scope run_scope.
Delimit Scope run_scope with run.
Notation "'let!' x ':=' m 'in' k" := (bind m (λ x, k))
  (at level 10, x name, m at level 100, k at level 200) : run_scope.
Notation "'do!' m 'in' k" := (bind m (λ _, k))
  (at level 10, m at level 100, k at level 200) : run_scope.
Local Open Scope run_scope.

(** A call to the world: answered from the history, then appended to it. *)
Definition ask {A} (c : call) (answer : list call → A) : M A :=
  λ st, (Ok (answer (history st)), State (messages st) (history st ++ [c])).

(** [messages += [m]] *)
Definition record_message (m : string) : M unit :=
  λ st, (Ok tt, State (messages st ++ [m]) (history st)).

(** [subprocess.run(command, cwd=..., env=..., check=...)] *)
Definition run_command (w : World) (check : bool) (command : list string)
    (cwd BORG_REPO : option string) : M (Z * list string) :=
  let! c := ask (Run command cwd BORG_REPO) (λ h, run w h command cwd BORG_REPO) in
  match c with
  | NotStarted => raise OSError
  | Completed returncode out =>
      if check && negb (returncode =? 0)
      then raise (CalledProcessError command returncode)
      else ret (returncode, out)
  end.

(** ** Path and name helpers *)

Definition is_absolute (path : string) : bool := String.prefix "/" path.

Fixpoint ends_with_sep (path : string) : bool :=
  match path with
  | EmptyString => false
  | String a EmptyString => bool_decide (a = "/"%char)
  | String _ rest => ends_with_sep rest
  end.

(** [os.path.join] of two components on POSIX. *)
Definition pathjoin (a b : string) : string :=
  if is_absolute b then b
  else if String.eqb a "" || ends_with_sep a then a +:+ b
  else a +:+ "/" +:+ b.

(** [subvolume.replace("/", "_")] *)
Fixpoint replace_sep (s : string) : string :=
  match s with
  | EmptyString => EmptyString
  | String a rest =>
      String (if bool_decide (a = "/"%char) then "_"%char else a) (replace_sep rest)
  end.

Definition subvolume_name_from_subvolume (subvolume : string) : string :=
  let name := replace_sep subvolume in
  if String.eqb name "_" then "ROOT" else name.

Definition snapshotable_fstypes : list string := ["btrfs"].

(** [string[n:]] *)
Fixpoint string_from (n : nat) (s : string) : string :=
  match n, s with
  | O, _ => s
  | S n', String _ rest => string_from n' rest
  | S _, EmptyString => EmptyString
  end.

(** [remove_prefix]: [string[len(prefix):]] when the string starts with the
    prefix, the string itself otherwise. *)
Definition remove_prefix (s prefix : string) : string :=
  if String.prefix prefix s then string_from (String.length prefix) s else s.

(** ** The functions of the run *)

Section Run.
Context (w : World).

(** [filesystem_type], on the partitions [psutil] reported. *)
Definition matching_partitions (partitions : list sdiskpart) (mp : pyval)
    : list sdiskpart :=
  filter (λ partition, PStr (mountpoint partition) = mp) partitions.

Definition filesystem_type_of (partitions : list sdiskpart) (mp : pyval)
    : result string :=
  let partitions := matching_partitions partitions mp in
  if negb (bool_decide (length partitions = 1%nat))
  then Raise (RuntimeError (MatchingPartitions (length partitions)))
  else match partitions with
       | p :: _ => Ok (fstype p)
       | [] => Raise IndexError
       end.

Definition filesystem_type (mp : pyval) : M string :=
  let! partitions := ask DiskPartitions (disk_partitions w) in
  lift (filesystem_type_of partitions mp).

Definition subvolume_from_mountpoint (btrfs mp : string) : M string :=
  let! mounted := ask (IsMount mp) (λ h, is_mountpoint w h mp) in
  if negb mounted then raise (RuntimeError (NotAMountpoint mp))
  else
    let! shown := run_command w true [btrfs; "subvolume"; "show"; mp] None None in
    match snd shown with
    | [] => raise IndexError
    | line :: _ => ret line
    end.

Definition snapshot (btrfs mp snapshot_path : string) : M unit :=
  do! run_command w true [btrfs; "subvolume"; "snapshot"; "-r"; mp; snapshot_path]
        None None in
  ret tt.

Definition niced (command : list string) : list string :=
  ["ionice"; "-c3"; "nice"; "-n10"] ++ command.

Definition backup_command (borg : string) (excludes : list string) (nice : bool)
    : list string :=
  let command :=
    [borg; "--show-rc"; "--show-version"; "create"; "--list"; "--filter=E";
     "--stats"; "--compression=lz4"; "--one-file-system"; "--exclude-caches"]
    ++ ((λ v, "--exclude=" +:+ v) <$> excludes)
    ++ ["::{hostname}-{utcnow}"; "."] in
  if nice then niced command else command.

(** [backup]: the source directory is the snapshot when one is given and the
    mount point otherwise; the result is [returncode == 0]. *)
Definition backup (name : string) (config : gmap string pyval) (snapshot_path : pyval)
    : M bool :=
  let! mp := lift (getitem config "mountpoint") in
  let! repository := lift (getitem config "repository") in
  let source := if negb (truthy snapshot_path) then mp else snapshot_path in
  let! borg := lift (getitem config "borg") in
  let! excludes := lift (getitem config "excludes") in
  let! excludes := lift (as_items excludes) in
  let! nice := lift (getitem config "nice") in
  let! borg := lift (as_str borg) in
  let! repository := lift (as_str repository) in
  let! source := lift (as_str source) in
  let command := backup_command borg excludes (truthy nice) in
  let! done := run_command w false command (Some source) (Some repository) in
  ret (fst done =? 0).

Definition prune_command (borg : string) (nice : bool) : list string :=
  let command :=
    [borg; "--show-rc"; "--show-version"; "prune"; "--list";
     "--prefix={hostname}-"; "--keep-daily=7"; "--keep-weekly=4";
     "--keep-monthly=6"] in
  if nice then niced command else command.

Definition prune_backups (name : string) (config : gmap string pyval) : M unit :=
  let! _mp := lift (getitem config "mountpoint") in
  let! repository := lift (getitem config "repository") in
  let! borg := lift (getitem config "borg") in
  let! nice := lift (getitem config "nice") in
  let! borg := lift (as_str borg) in
  let! repository := lift (as_str repository) in
  do! run_command w true (prune_command borg (truthy nice)) None (Some repository) in
  ret tt.

(** [prune_snapshots]: the timestamps of the names, the keep list, and one
    [btrfs subvolume delete] per name whose timestamp is not kept. *)
Fixpoint parse_timestamps (snapshots : list string) : result (list Z) :=
  match snapshots with
  | [] => Ok []
  | s :: rest =>
      match snapshot_timestamp w s with
      | Raise e => Raise e
      | Ok t =>
          match parse_timestamps rest with
          | Raise e => Raise e
          | Ok ts => Ok (t :: ts)
          end
      end
  end.

Fixpoint delete_unkept (btrfs snapshot_dir : string) (keep : list Z)
    (snapshots : list string) : M unit :=
  match snapshots with
  | [] => ret tt
  | s :: rest =>
      let! t := lift (snapshot_timestamp w s) in
      do! (if bool_decide (t ∈ keep) then ret tt
           else do! run_command w true
                      [btrfs; "subvolume"; "delete"; pathjoin snapshot_dir s]
                      None None in
                ret tt) in
      delete_unkept btrfs snapshot_dir keep rest
  end.

Definition prune_snapshots (btrfs : string) (now : Z) (snapshot_dir : string)
    (snapshots : list string) : M unit :=
  let! actual_timestamps := lift (parse_timestamps snapshots) in
  let! keep := lift (keep_timestamps now actual_timestamps) in
  delete_unkept btrfs snapshot_dir keep snapshots.

End Run.

(** ** The two sweeps of the main program *)

Section Main.
Context (w : World) (args : Args) (now : Z).

(** [if args.backup_only and name not in args.backup_only: continue] *)
Definition skipped (name : string) : bool :=
  match backup_only args with
  | Some (x :: l) => negb (bool_decide (name ∈ x :: l))
  | _ => false
  end.

Definition unsupported_message (fs mp : string) : string :=
  "Filesystem type " +:+ fs +:+ " of mountpoint " +:+ mp
  +:+ " not supported, unable to create snapshot!".

Definition backup_failed_message (name : string) : string :=
  "Backup of " +:+ name +:+ " exited with non-zero exit code, check the logs!".

Definition nice_value : pyval :=
  match nice args with
  | Some b => PBool b
  | None => PNone
  end.

(** The body of the first loop: defaults, the file system type, and either
    the snapshot or the recorded warning.  A mount point that matched a
    partition is a [str], so the [as_str] below cannot raise. *)
Definition phase1_step (name : string) (config : gmap string pyval)
    : M (gmap string pyval) :=
  let config :=
    match config !! "excludes" with
    | None => <["excludes" := PList []]> config
    | Some _ => config
    end in
  let! repository := lift (getitem config "repository") in
  let! repository := lift (as_str repository) in
  let! config :=
    (if negb (is_absolute repository)
     then let path := pathjoin (backup_dir args) repository in
          let! resolved := ask (Realpath path) (λ h, realpath w h path) in
          ret (<["repository" := PStr resolved]> config)
     else ret config) in
  let! mp := lift (getitem config "mountpoint") in
  let! fs := filesystem_type w mp in
  let config :=
    <["nice" := nice_value]>
      (<["borg" := PStr (with_borg args)]> (<["fstype" := PStr fs]> config)) in
  let! mp := lift (as_str mp) in
  if bool_decide (fs ∈ snapshotable_fstypes) then
    let! subvolume := subvolume_from_mountpoint w (with_btrfs args) mp in
    let subvolume_name := subvolume_name_from_subvolume subvolume in
    let snapshot_path :=
      pathjoin (snapshot_dir args) (subvolume_name +:+ "-" +:+ pretty now) in
    let config :=
      <["snapshot" := PStr snapshot_path]>
        (<["subvolume_name" := PStr subvolume_name]>
           (<["subvolume" := PStr subvolume]> config)) in
    do! snapshot w (with_btrfs args) mp snapshot_path in
    ret config
  else
    do! record_message (unsupported_message fs mp) in
    ret config.

(** The configuration is an insertion-ordered dictionary of dictionaries;
    the first loop updates each target's dictionary in place. *)
Fixpoint phase1 (config : list (string * gmap string pyval))
    : M (list (string * gmap string pyval)) :=
  match config with
  | [] => ret []
  | (name, backup_config) :: rest =>
      let! backup_config :=
        (if skipped name then ret backup_config
         else phase1_step name backup_config) in
      let! rest := phase1 rest in
      ret ((name, backup_config) :: rest)
  end.

(** Lines 245 to 248: the snapshot pruning of a snapshotted target. *)
Definition prune_target_snapshots (config : gmap string pyval) : M unit :=
  let! fs := lift (getitem config "fstype") in
  if bool_decide (fs ∈ (PStr <$> snapshotable_fstypes)) then
    let! subvolume_name := lift (getitem config "subvolume_name") in
    let! subvolume_name := lift (as_str subvolume_name) in
    let! matches := lift (subvolume_regex w subvolume_name) in
    let dir := snapshot_dir args in
    let! listing := ask (Listdir dir) (λ h, listdir w h dir) in
    let! filenames := lift listing in
    prune_snapshots w (with_btrfs args) now dir (List.filter matches filenames)
  else ret tt.

(** What follows the backup of a target. *)
Definition after_backup (name : string) (config : gmap string pyval) : M unit :=
  do! prune_backups w name config in
  prune_target_snapshots config.

(** The body of the second loop. *)
Definition phase2_step (name : string) (config : gmap string pyval) : M unit :=
  let snapshot_path := default PNone (config !! "snapshot") in
  let! succeeded := backup w name config snapshot_path in
  do! (if negb succeeded then record_message (backup_failed_message name)
       else ret tt) in
  after_backup name config.

Fixpoint phase2 (config : list (string * gmap string pyval)) : M unit :=
  match config with
  | [] => ret tt
  | (name, backup_config) :: rest =>
      do! (if skipped name then ret tt else phase2_step name backup_config) in
      phase2 rest
  end.

(** The main program from the snapshot directory check on; [messages] starts
    empty. *)
Definition main (config : list (string * gmap string pyval)) : M unit :=
  let dir := snapshot_dir args in
  let! mounted := ask (IsMount dir) (λ h, is_mountpoint w h dir) in
  if negb mounted then raise (RuntimeError (AdvisedMountpoint dir))
  else
    do! ask (Mkdir dir) (λ _, tt) in
    let! config := phase1 config in
    phase2 config.

End Main.

Definition initial : state := State [] [].

(** A computation whose result, recorded messages and calls are determined by
    the history of calls alone: it reads no message, only appends. *)
Definition appends {A} (k : M A) : Prop :=
  ∀ h, ∃ r recorded calls,
    ∀ ms, k (State ms h) = (r, State (ms ++ recorded) (h ++ calls)).

(** A computation that leaves the messages alone and only makes calls. *)
Definition calls_only {A} (k : M A) : Prop :=
  ∀ h, ∃ r calls, ∀ ms, k (State ms h) = (r, State ms (h ++ calls)).

(** ** A sample installation

    Two mounts, [/home] on ext4 and [/srv] on btrfs; every command starts,
    [borg create] ends with [backup_returncode], everything else with 0. *)

Definition sample_world (backup_returncode : Z) : World := {|
  disk_partitions := λ _,
    [ {| device := "/dev/sda2"; mountpoint := "/home"; fstype := "ext4" |};
      {| device := "/dev/sdb1"; mountpoint := "/srv"; fstype := "btrfs" |} ];
  is_mountpoint := λ _ _, true;
  realpath := λ _ path, path;
  listdir := λ _ _, Ok ["srv-999900"; "srv-913000"; "home.old"];
  run := λ _ command _ _,
    if bool_decide ("create" ∈ command) then Completed backup_returncode []
    else Completed 0 ["srv"];
  subvolume_regex := λ name, Ok (String.prefix (name +:+ "-"));
  snapshot_timestamp := λ s,
    if String.eqb s "srv-999900" then Ok 999900
    else if String.eqb s "srv-913000" then Ok 913000
    else Raise ValueError
|}.

Definition sample_args : Args := {|
  backup_only := None;
  snapshot_dir := "/@snapshots";
  with_borg := "/opt/borg";
  with_btrfs := "/usr/bin/btrfs";
  nice := None;
  backup_dir := "/backup"
|}.

(** The entry for [/home] as the configuration file gives it, the same entry
    with a [snapshot] field of its own, and the entry for [/srv]. *)
Definition home_config : gmap string pyval :=
  <["mountpoint" := PStr "/home"]> (<["repository" := PStr "home.borg"]> ∅).

Definition home_config_with_snapshot : gmap string pyval :=
  <["snapshot" := PStr "/elsewhere"]> home_config.

Definition srv_config : gmap string pyval :=
  <["mountpoint" := PStr "/srv"]> (<["repository" := PStr "/backup/srv.borg"]> ∅).

(** [home_config] as the first sweep leaves it. *)
Definition home_config_resolved : gmap string pyval :=
  <["nice" := PNone]>
    (<["borg" := PStr "/opt/borg"]>
       (<["fstype" := PStr "ext4"]>
          (<["repository" := PStr "/backup/home.borg"]>
             (<["excludes" := PList []]> home_config)))).

(** A second installation, for the snapshot pruning: the listing of the
    snapshot directory holds two snapshots stamped far ahead of any run at
    [now = 1000000], and [btrfs subvolume delete] ends with
    [delete_returncode]. *)
Definition pruning_world (delete_returncode : Z) : World := {|
  disk_partitions := λ _,
    [ {| device := "/dev/sdb1"; mountpoint := "/srv"; fstype := "btrfs" |} ];
  is_mountpoint := λ _ _, true;
  realpath := λ _ path, path;
  listdir := λ _ _,
    Ok ["srv-913000"; "srv-2000000"; "srv-999900"; "srv-3000000"];
  run := λ _ command _ _,
    if bool_decide ("delete" ∈ command) then Completed delete_returncode []
    else Completed 0 ["srv"];
  subvolume_regex := λ name, Ok (String.prefix (name +:+ "-"));
  snapshot_timestamp := λ s,
    if String.eqb s "srv-913000" then Ok 913000
    else if String.eqb s "srv-2000000" then Ok 2000000
    else if String.eqb s "srv-999900" then Ok 999900
    else if String.eqb s "srv-3000000" then Ok 3000000
    else Raise ValueError
|}.

(** ** Kinds of calls and of computations *)

(** A [borg] run is one that is given [BORG_REPO]; a snapshot is taken by
    [BTRFS subvolume snapshot -r MOUNTPOINT PATH]. *)
Definition is_borg_run (c : call) : bool :=
  match c with
  | Run _ _ (Some _) => true
  | _ => false
  end.

Definition is_snapshot_run (c : call) : bool :=
  match c with
  | Run command None None =>
      match command with
      | [_; a; b; c; _; _] =>
          String.eqb a "subvolume" && String.eqb b "snapshot" && String.eqb c "-r"
      | _ => false
      end
  | _ => false
  end.

(** A computation all of whose calls satisfy [P] and all of whose
    exceptions satisfy [E]. *)
Definition behaves (P : call → Prop) (E : exn → Prop) {A} (k : M A) : Prop :=
  ∀ st r st', k st = (r, st') →
    (∃ calls, history st' = history st ++ calls ∧ Forall P calls) ∧
    (∀ e, r = Raise e → E e).

(** A target's dictionary with every key the second sweep reads. *)
Definition resolved (config : gmap string pyval) : Prop :=
  Forall (λ key, is_Some (config !! key))
    ["mountpoint"; "repository"; "borg"; "excludes"; "nice"; "fstype"] ∧
  (∀ fs, config !! "fstype" = Some fs → fs ∈ PStr <$> snapshotable_fstypes →
         is_Some (config !! "subvolume_name")).

(** What Python's [int], [re.compile] and [os.listdir] can raise. *)
Definition library_errors (w : World) : Prop :=
  (∀ s e, snapshot_timestamp w s = Raise e → e = ValueError) ∧
  (∀ name e, subvolume_regex w name = Raise e → e = ReError) ∧
  (∀ h dir e, listdir w h dir = Raise e → e = OSError).

(** * Properties *)

(** ** The closest-candidate search *)

Section Closest.
Context (target : Z).

Lemma closest_scan_cons acc x l :
  closest_scan target acc (x :: l) = closest_scan target (closest_step target acc x) l.
Proof. reflexivity. Qed.

Lemma closest_step_closer best bd c :
  Z.abs (target - c) < bd →
  closest_step target (best, bd) c = (c, Z.abs (target - c)).
Proof.
  intros H. unfold closest_step. cbn [snd].
  now destruct (Z.ltb_spec (Z.abs (target - c)) bd); [|lia].
Qed.

Lemma closest_step_keeps best bd c :
  bd ≤ Z.abs (target - c) →
  closest_step target (best, bd) c = (best, bd).
Proof.
  intros H. unfold closest_step. cbn [snd].
  now destruct (Z.ltb_spec (Z.abs (target - c)) bd); [lia|].
Qed.

(** The scan ends either where it started, every candidate being at least
    [best_distance] away, or on the first candidate at the least distance. *)
Lemma closest_scan_spec l : ∀ best best_distance,
  let r := closest_scan target (best, best_distance) l in
  (∀ x, x ∈ l → snd r ≤ Z.abs (target - x)) ∧
  (r = (best, best_distance) ∨
   (snd r < best_distance ∧
    ∃ l1 l2, l = l1 ++ fst r :: l2 ∧ Z.abs (target - fst r) = snd r ∧
             ∀ x, x ∈ l1 → snd r < Z.abs (target - x))).
Proof.
  induction l as [|c l IH]; intros best bd; cbn zeta.
  - split; [intros x Hx; inversion Hx | now left].
  - rewrite closest_scan_cons.
    destruct (Z.ltb_spec (Z.abs (target - c)) bd) as [Hlt|Hge].
    + rewrite closest_step_closer by done.
      specialize (IH c (Z.abs (target - c))). cbn zeta in IH.
      destruct (closest_scan target (c, Z.abs (target - c)) l) as [b' d'].
      cbn [fst snd] in *.
      destruct IH as [Hmin [Heq|(Hless & l1 & l2 & Hl & Hd & Hbefore)]].
      * injection Heq as -> ->. split.
        -- intros x [->|Hx]%elem_of_cons; [lia | auto].
        -- right. split; [done|]. exists [], l. split; [done|]. split; [done|].
           intros x Hx; inversion Hx.
      * split.
        -- intros x [->|Hx]%elem_of_cons; [lia | auto].
        -- right. split; [lia|]. exists (c :: l1), l2.
           split; [by rewrite Hl|]. split; [done|].
           intros x [->|Hx]%elem_of_cons; [lia | auto].
    + rewrite closest_step_keeps by done.
      specialize (IH best bd). cbn zeta in IH.
      destruct (closest_scan target (best, bd) l) as [b' d'].
      cbn [fst snd] in *.
      destruct IH as [Hmin [Heq|(Hless & l1 & l2 & Hl & Hd & Hbefore)]].
      * injection Heq as -> ->. split; [|now left].
        intros x [->|Hx]%elem_of_cons; [lia | auto].
      * split.
        -- intros x [->|Hx]%elem_of_cons; [lia | auto].
        -- right. split; [done|]. exists (c :: l1), l2.
           split; [by rewrite Hl|]. split; [done|].
           intros x [->|Hx]%elem_of_cons; [lia | auto].
Qed.

(** A returned candidate: where it stands in the pool, that it is strictly
    closer to the target than the target's own value, that nothing in the
    pool is closer, and that everything before it is strictly farther. *)
Lemma closest_Some pool c :
  closest target pool = Some c →
  ∃ l1 l2, pool = l1 ++ c :: l2 ∧
    Z.abs (target - c) < target ∧
    (∀ x, x ∈ pool → Z.abs (target - c) ≤ Z.abs (target - x)) ∧
    (∀ x, x ∈ l1 → Z.abs (target - c) < Z.abs (target - x)).
Proof.
  unfold closest. intros H.
  destruct (closest_scan_spec pool 0 target) as [Hmin [Heq|(Hless & l1 & l2 & Hl & Hd & Hbefore)]].
  - rewrite Heq in H. discriminate.
  - destruct (Z.eqb_spec (fst (closest_scan target (0, target) pool)) 0); [discriminate|].
    injection H as <-. exists l1, l2. rewrite Hd. auto.
Qed.

(** No candidate is returned only when none is strictly closer to the target
    than the target's own value. *)
Lemma closest_None pool :
  closest target pool = None → ∀ x, x ∈ pool → target ≤ Z.abs (target - x).
Proof.
  unfold closest. intros H.
  destruct (closest_scan_spec pool 0 target) as [Hmin [Heq|(Hless & l1 & l2 & Hl & Hd & Hbefore)]].
  - rewrite Heq in Hmin. exact Hmin.
  - destruct (Z.eqb_spec (fst (closest_scan target (0, target) pool)) 0) as [E|]; [|discriminate].
    rewrite E in Hd. lia.
Qed.

Lemma closest_elem_of pool c : closest target pool = Some c → c ∈ pool.
Proof.
  intros (l1 & l2 & -> & _)%closest_Some. apply elem_of_app. right. left.
Qed.

Lemma closest_positive pool c : closest target pool = Some c → 0 < c.
Proof. intros (_ & _ & _ & Hd & _)%closest_Some. lia. Qed.

Lemma closest_nonpositive_target pool : target ≤ 0 → closest target pool = None.
Proof.
  intros Ht. destruct (closest target pool) as [c|] eqn:E; [|done].
  apply closest_Some in E as (_ & _ & _ & Hd & _). lia.
Qed.

(** The first candidate at the least distance is unique: two splits of the
    pool at such a candidate are the same split. *)
Lemma first_least_unique (l1 l1' l2 l2' : list Z) c c' :
  l1 ++ c :: l2 = l1' ++ c' :: l2' →
  Z.abs (target - c) = Z.abs (target - c') →
  (∀ x, x ∈ l1 → Z.abs (target - c) < Z.abs (target - x)) →
  (∀ x, x ∈ l1' → Z.abs (target - c') < Z.abs (target - x)) →
  c = c'.
Proof.
  revert l1'. induction l1 as [|a l1 IH]; intros [|a' l1'] Heq Hd H1 H1';
    cbn in Heq; injection Heq as Hhead Htail.
  - done.
  - specialize (H1' a' (list_elem_of_here _ _)). subst a'. lia.
  - specialize (H1 a (list_elem_of_here _ _)). subst a. lia.
  - eapply IH; eauto.
    + intros x Hx. apply H1. now right.
    + intros x Hx. apply H1'. now right.
Qed.

(** Conversely, the first candidate at the least distance is returned when
    it is within reach. *)
Lemma closest_intro l1 c l2 :
  Z.abs (target - c) < target →
  (∀ x, x ∈ l1 ++ c :: l2 → Z.abs (target - c) ≤ Z.abs (target - x)) →
  (∀ x, x ∈ l1 → Z.abs (target - c) < Z.abs (target - x)) →
  closest target (l1 ++ c :: l2) = Some c.
Proof.
  intros Hd Hmin Hbefore.
  assert (Hc : c ∈ l1 ++ c :: l2) by (apply elem_of_app; right; left).
  destruct (closest target (l1 ++ c :: l2)) as [c'|] eqn:E.
  - f_equal. symmetry.
    pose proof (closest_elem_of _ _ E) as Hc'.
    apply closest_Some in E as (l1' & l2' & Heq & Hd' & Hmin' & Hbefore').
    eapply first_least_unique; eauto.
    specialize (Hmin _ Hc'). specialize (Hmin' _ Hc). lia.
  - pose proof (closest_None _ E _ Hc). lia.
Qed.

(** Dropping candidates other than the chosen one does not change the
    choice, and an empty-handed search stays empty-handed. *)
Lemma closest_filter (P : Z → Prop) `{!∀ x, Decision (P x)} pool c :
  closest target pool = Some c → P c → closest target (filter P pool) = Some c.
Proof.
  intros (l1 & l2 & -> & Hd & Hmin & Hbefore)%closest_Some Hc.
  rewrite filter_app, filter_cons_True by done.
  apply closest_intro; [done| |].
  - intros x Hx. apply Hmin.
    rewrite <- (filter_cons_True P c l2), <- filter_app in Hx by done.
    now apply list_elem_of_filter in Hx as [_ Hx].
  - intros x [_ Hx]%list_elem_of_filter. auto.
Qed.

Lemma closest_filter_None (P : Z → Prop) `{!∀ x, Decision (P x)} pool :
  closest target pool = None → closest target (filter P pool) = None.
Proof.
  intros HN. destruct (closest target (filter P pool)) as [c|] eqn:E; [|done].
  pose proof (closest_elem_of _ _ E) as [_ Hc]%list_elem_of_filter.
  apply closest_Some in E as (_ & _ & _ & Hd & _).
  pose proof (closest_None _ HN _ Hc). lia.
Qed.

End Closest.

(** ** [list.remove] *)

Lemma list_remove_elem_of x l : x ∈ l → ∃ l', list_remove x l = Some l'.
Proof.
  induction l as [|y l IH]; intros Hx; [inversion Hx|].
  cbn. destruct (Z.eqb_spec x y) as [->|Hne]; [eauto|].
  apply elem_of_cons in Hx as [->|Hx]; [done|].
  destruct (IH Hx) as [l' ->]. cbn. eauto.
Qed.

Lemma list_remove_perm x l l' : list_remove x l = Some l' → l ≡ₚ x :: l'.
Proof.
  revert l'. induction l as [|y l IH]; intros l' H; [discriminate|].
  cbn in H. destruct (Z.eqb_spec x y) as [->|Hne].
  - by injection H as ->.
  - destruct (list_remove x l) as [l0|]; [|discriminate].
    injection H as <-. rewrite (IH l0 eq_refl). apply Permutation_swap.
Qed.

Lemma list_remove_filter (P : Z → Prop) `{!∀ x, Decision (P x)} x l l' :
  list_remove x l = Some l' → P x →
  list_remove x (filter P l) = Some (filter P l').
Proof.
  revert l'. induction l as [|y l IH]; intros l' Hrm HP; [discriminate|].
  cbn in Hrm. destruct (Z.eqb_spec x y) as [->|Hne].
  - injection Hrm as ->. rewrite filter_cons_True by done. cbn.
    by rewrite Z.eqb_refl.
  - destruct (list_remove x l) as [l0|]; [|discriminate].
    injection Hrm as <-. rewrite !filter_cons. destruct (decide (P y)).
    + cbn. destruct (Z.eqb_spec x y); [done|]. by rewrite (IH l0 eq_refl HP).
    + by apply IH.
Qed.

(** ** The selection loop *)

(** The keep list only grows at its end: the loop started on any keep list
    appends what it appends when started on the empty one. *)
Lemma select_loop_acc wanted anchor : ∀ actual keep,
  select_loop wanted anchor actual keep =
  match select_loop wanted anchor actual [] with
  | Ok picks => Ok (keep ++ picks)
  | Raise e => Raise e
  end.
Proof.
  induction wanted as [|next wanted IH]; intros actual keep; cbn.
  - by rewrite app_nil_r.
  - destruct (closest _ actual) as [c|]; [|by rewrite app_nil_r].
    destruct (c =? 0); [by rewrite app_nil_r|].
    destruct (list_remove c actual) as [actual'|]; [|done].
    rewrite (IH actual' (keep ++ [c])), (IH actual' [c]).
    destruct (select_loop wanted anchor actual' []); [|done].
    by rewrite <- app_assoc.
Qed.

(** One round of the loop, read off [select]. *)
Lemma select_cons next wanted now actual :
  select (next :: wanted) now actual =
  match closest (now - time_intervals next) actual with
  | None => Ok []
  | Some c =>
      if c =? 0 then Ok []
      else match list_remove c actual with
           | None => Raise ValueError
           | Some actual' =>
               match select wanted now actual' with
               | Ok picks => Ok (c :: picks)
               | Raise e => Raise e
               end
           end
  end.
Proof.
  unfold select. cbn.
  destruct (closest _ actual) as [c|]; [|done].
  destruct (c =? 0); [done|].
  destruct (list_remove c actual) as [actual'|]; [|done].
  by rewrite select_loop_acc.
Qed.

(** The round as a case analysis: the loop stops with nothing, or keeps the
    closest candidate and goes on with the pool without it. *)
Lemma select_cons_cases next wanted now actual :
  (closest (now - time_intervals next) actual = None ∧
   select (next :: wanted) now actual = Ok []) ∨
  (∃ c actual', closest (now - time_intervals next) actual = Some c ∧
     list_remove c actual = Some actual' ∧
     select (next :: wanted) now actual =
       match select wanted now actual' with
       | Ok picks => Ok (c :: picks)
       | Raise e => Raise e
       end).
Proof.
  rewrite select_cons.
  destruct (closest _ actual) as [c|] eqn:E; [|by left].
  right. pose proof (closest_positive _ _ _ E) as Hpos.
  destruct (list_remove_elem_of c actual (closest_elem_of _ _ _ E)) as [actual' Hr].
  exists c, actual'. rewrite Hr. destruct (Z.eqb_spec c 0); [lia|done].
Qed.

(** The loop never raises: the candidate it removes is in the pool. *)
Lemma select_total wanted now : ∀ actual, ∃ keep, select wanted now actual = Ok keep.
Proof.
  induction wanted as [|next wanted IH]; intros actual; [by exists []|].
  destruct (select_cons_cases next wanted now actual)
    as [[_ ->]|(c & actual' & _ & _ & ->)]; [eauto|].
  destruct (IH actual') as [picks ->]. eauto.
Qed.

(** What is kept is taken from the pool, each entry at most once, one entry
    per round at most, and only positive timestamps. *)
Lemma select_sound wanted now : ∀ actual keep,
  select wanted now actual = Ok keep →
  keep ⊆+ actual ∧ (length keep ≤ length wanted)%nat ∧ Forall (λ t, 0 < t) keep.
Proof.
  induction wanted as [|next wanted IH]; intros actual keep H.
  - injection H as <-. split_and!; [apply submseteq_nil_l|done|done].
  - destruct (select_cons_cases next wanted now actual)
      as [[_ E]|(c & actual' & Hc & Hr & E)]; rewrite E in H.
    + injection H as <-. split_and!; [apply submseteq_nil_l|cbn; lia|done].
    + destruct (select wanted now actual') as [picks|] eqn:Hp; [|done].
      injection H as <-. destruct (IH _ _ Hp) as (Hsub & Hlen & Hpos).
      split_and!.
      * rewrite (list_remove_perm _ _ _ Hr). by apply submseteq_skip.
      * cbn. lia.
      * constructor; [by eapply closest_positive|done].
Qed.

(** Entries that are not kept play no part: without them the loop keeps the
    same list. *)
Lemma select_filter (P : Z → Prop) `{!∀ x, Decision (P x)} wanted now :
  ∀ actual keep,
  select wanted now actual = Ok keep → (∀ k, k ∈ keep → P k) →
  select wanted now (filter P actual) = Ok keep.
Proof.
  induction wanted as [|next wanted IH]; intros actual keep Hsel HP; [done|].
  rewrite select_cons.
  destruct (select_cons_cases next wanted now actual)
    as [[Hc E]|(c & actual' & Hc & Hr & E)]; rewrite E in Hsel.
  - injection Hsel as <-. by rewrite (closest_filter_None _ P _ Hc).
  - destruct (select wanted now actual') as [picks|] eqn:Hp; [|done].
    injection Hsel as <-.
    assert (P c) as HPc by (apply HP; left).
    rewrite (closest_filter _ P _ _ Hc HPc).
    pose proof (closest_positive _ _ _ Hc).
    destruct (Z.eqb_spec c 0); [lia|].
    rewrite (list_remove_filter P _ _ _ Hr HPc).
    rewrite (IH actual' picks Hp); [done|].
    intros k Hk. apply HP. by right.
Qed.

(** ** The retention claims *)

Example closest_first_daily_slot :
  closest 913600 [999900; 913000; 395000] = Some 913000.
Proof. reflexivity. Qed.

Example closest_tie_keeps_earlier : closest 10 [13; 9; 11; 7] = Some 9.
Proof. reflexivity. Qed.

Example closest_zero_not_selectable : closest 10 [0; 20; 25] = None.
Proof. reflexivity. Qed.

(** C1, as the code has it: with [now = 1000000], the tiers daily twice and
    weekly once, and the timestamps 999900, 913000 and 395000, the first
    daily slot (target 913600) keeps 913000, the second daily slot keeps
    999900, the weekly slot keeps 395000, and the keep list is those three;
    the fixed policy of [prune_snapshots] keeps the same three. *)
Theorem scenario_keeps_all_three :
  closest (1000000 - time_intervals day) [999900; 913000; 395000] = Some 913000 ∧
  select [day; day; week] 1000000 [999900; 913000; 395000]
    = Ok [913000; 999900; 395000] ∧
  keep_timestamps 1000000 [999900; 913000; 395000]
    = Ok [913000; 999900; 395000].
Proof. split_and!; reflexivity. Qed.

(** C1 as the specification states it does not hold: the keep list of the
    scenario is not the single timestamp 913000. *)
Lemma scenario_not_only_913000 :
  ¬ ∃ keep, select [day; day; week] 1000000 [999900; 913000; 395000] = Ok keep ∧
            ∀ t, t ∈ keep ↔ t = 913000.
Proof.
  intros (keep & Hk & Hset).
  assert (Hk' : select [day; day; week] 1000000 [999900; 913000; 395000]
                = Ok [913000; 999900; 395000]) by reflexivity.
  rewrite Hk' in Hk. injection Hk as <-.
  assert (999900 ∈ [913000; 999900; 395000]) as Hin by (right; left).
  apply Hset in Hin. discriminate.
Qed.

(** The scenario does not depend on whether the cursor follows the kept
    timestamps: the selection worded as in the specification keeps the same
    list there. *)
Lemma scenario_with_advancing_cursor :
  spec_select_loop [day; day; week] 1000000 [999900; 913000; 395000] []
  = [913000; 999900; 395000].
Proof. reflexivity. Qed.

(** Where the two differ: the loop of the source measures every slot from
    [now], the cursor of the specification from the last kept timestamp. *)
Lemma cursor_stays_at_now :
  select [day; day] 1000000 [913000; 900000; 826000] = Ok [913000; 900000] ∧
  spec_select_loop [day; day] 1000000 [913000; 900000; 826000] []
  = [913000; 826000].
Proof. split; reflexivity. Qed.

(** C2: at a tier step with cursor [anchor] and duration [d], on a pool of
    timestamps (which are never negative), the candidate chosen for
    [target = anchor - d] is strictly closer to the target than [|target|],
    no candidate within that reach is closer, every candidate standing
    before it in the pool is strictly farther (so on equal distance the
    earlier one wins), and it is never 0; none is chosen only if none is
    within reach. *)
Theorem closest_selects (anchor d : Z) (pool : list Z) :
  Forall (λ c, 0 ≤ c) pool →
  match closest (anchor - d) pool with
  | Some c =>
      c ≠ 0 ∧
      Z.abs (anchor - d - c) < Z.abs (anchor - d) ∧
      (∀ x, x ∈ pool → Z.abs (anchor - d - x) < Z.abs (anchor - d) →
            Z.abs (anchor - d - c) ≤ Z.abs (anchor - d - x)) ∧
      ∃ before after, pool = before ++ c :: after ∧
        ∀ x, x ∈ before → Z.abs (anchor - d - c) < Z.abs (anchor - d - x)
  | None => ∀ x, x ∈ pool → ¬ Z.abs (anchor - d - x) < Z.abs (anchor - d)
  end.
Proof.
  intros Hpool. destruct (closest (anchor - d) pool) as [c|] eqn:E.
  - pose proof (closest_positive _ _ _ E) as Hpos.
    apply closest_Some in E as (l1 & l2 & Hl & Hd & Hmin & Hbefore).
    split_and!; [lia|lia|auto|eauto].
  - intros x Hx. pose proof (closest_None _ _ E x Hx) as Hfar.
    rewrite Forall_forall in Hpool. specialize (Hpool x Hx). lia.
Qed.

Lemma closest_selects_witness :
  match closest (100 - 90) [13; 9; 11; 7] with
  | Some c =>
      c ≠ 0 ∧
      Z.abs (100 - 90 - c) < Z.abs (100 - 90) ∧
      (∀ x, x ∈ [13; 9; 11; 7] → Z.abs (100 - 90 - x) < Z.abs (100 - 90) →
            Z.abs (100 - 90 - c) ≤ Z.abs (100 - 90 - x)) ∧
      ∃ before after, [13; 9; 11; 7] = before ++ c :: after ∧
        ∀ x, x ∈ before → Z.abs (100 - 90 - c) < Z.abs (100 - 90 - x)
  | None => ∀ x, x ∈ [13; 9; 11; 7] → ¬ Z.abs (100 - 90 - x) < Z.abs (100 - 90)
  end.
Proof.
  apply (closest_selects 100 90 [13; 9; 11; 7]).
  repeat constructor; lia.
Defined.

(** C3: when no pool candidate is within reach of a step's target, the loop
    ends there with the keep list as it stands, whatever tiers remain; so
    when none is within reach of the first daily target the keep list is
    empty. *)
Theorem stop_at_first_gap :
  (∀ next rest anchor pool keep,
     Forall (λ x, ¬ Z.abs (anchor - time_intervals next - x)
                    < Z.abs (anchor - time_intervals next)) pool →
     select_loop (next :: rest) anchor pool keep = Ok keep) ∧
  (∀ now existing,
     Forall (λ x, ¬ Z.abs (now - time_intervals day - x)
                    < Z.abs (now - time_intervals day)) existing →
     keep_timestamps now existing = Ok []).
Proof.
  assert (Hgap : ∀ target pool,
    Forall (λ x, ¬ Z.abs (target - x) < Z.abs target) pool →
    closest target pool = None).
  { intros target pool Hfar. destruct (closest target pool) as [c|] eqn:E; [|done].
    pose proof (closest_elem_of _ _ _ E) as Hc.
    apply closest_Some in E as (_ & _ & _ & Hd & _).
    rewrite Forall_forall in Hfar. specialize (Hfar c Hc). lia. }
  split.
  - intros next rest anchor pool keep Hfar. cbn. by rewrite (Hgap _ _ Hfar).
  - intros now existing Hfar. unfold keep_timestamps.
    change wanted_snapshots
      with (day :: replicate 6 day ++ replicate weekly week ++ replicate monthly month).
    by rewrite select_cons, (Hgap _ _ Hfar).
Qed.

Lemma stop_at_first_gap_witness :
  keep_timestamps 90000 [7200; 100000; 8000] = Ok [].
Proof.
  apply (proj2 stop_at_first_gap 90000 [7200; 100000; 8000]).
  repeat constructor; cbn; lia.
Defined.

(** C4: the keep list is drawn from the existing timestamps, each existing
    entry at most once, has at most 17 entries, and is empty when there are
    no existing timestamps. *)
Theorem keep_subset_bounded (now : Z) (existing : list Z) :
  (∃ keep, keep_timestamps now existing = Ok keep ∧
           keep ⊆ existing ∧ keep ⊆+ existing ∧ (length keep ≤ 17)%nat) ∧
  keep_timestamps now [] = Ok [].
Proof.
  split; [|reflexivity].
  destruct (select_total wanted_snapshots now existing) as [keep Hk].
  destruct (select_sound _ _ _ _ Hk) as (Hsub & Hlen & _).
  exists keep. split_and!; [done| |done|exact Hlen].
  intros t Ht. by eapply elem_of_submseteq.
Qed.

(** C5: computing the keep list, dropping every existing timestamp outside
    it, and selecting again from what is left with the same [now] gives the
    same keep list. *)
Theorem keep_idempotent (now : Z) (existing : list Z) :
  ∃ keep, keep_timestamps now existing = Ok keep ∧
          keep_timestamps now (surviving keep existing) = Ok keep.
Proof.
  destruct (select_total wanted_snapshots now existing) as [keep Hk].
  exists keep. split; [done|].
  unfold surviving. by apply (select_filter (λ t, t ∈ keep)).
Qed.

(** C6: when the most recent existing timestamp is removed and the keep list
    recomputed, every timestamp of the new keep list is at most as recent as
    some timestamp of the old one. *)
Theorem keep_monotone_most_recent (now m : Z) (existing : list Z) :
  m ∈ existing → Forall (λ x, x ≤ m) existing →
  ∃ keep keep',
    keep_timestamps now existing = Ok keep ∧
    keep_timestamps now (filter (λ t, t ≠ m) existing) = Ok keep' ∧
    ∀ t, t ∈ keep' → ∃ k, k ∈ keep ∧ t ≤ k.
Proof.
  intros Hm Hmax.
  destruct (select_total wanted_snapshots now existing) as [keep Hk].
  destruct (decide (m ∈ keep)) as [Hin|Hout].
  - destruct (select_total wanted_snapshots now (filter (λ t, t ≠ m) existing))
      as [keep' Hk'].
    exists keep, keep'. split_and!; [done|done|].
    intros t Ht. exists m. split; [done|].
    destruct (select_sound _ _ _ _ Hk') as (Hsub & _).
    pose proof (elem_of_submseteq _ _ _ Ht Hsub) as [_ Hte]%list_elem_of_filter.
    rewrite Forall_forall in Hmax. auto.
  - exists keep, keep. split_and!; [done| |].
    + apply (select_filter (λ t, t ≠ m)); [done|].
      intros k Hk1 ->. done.
    + intros t Ht. exists t. split; [done|lia].
Qed.

Lemma keep_monotone_most_recent_witness :
  ∃ keep keep',
    keep_timestamps 1000000 [999900; 913000; 395000] = Ok keep ∧
    keep_timestamps 1000000 (filter (λ t, t ≠ 999900) [999900; 913000; 395000])
      = Ok keep' ∧
    ∀ t, t ∈ keep' → ∃ k, k ∈ keep ∧ t ≤ k.
Proof.
  apply (keep_monotone_most_recent 1000000 999900 [999900; 913000; 395000]).
  - left.
  - repeat constructor; lia.
Defined.

(** C10: a target of zero or less finds no candidate whatever the pool
    holds; a returned candidate is strictly positive; so every kept
    timestamp is strictly positive, and the loop ends at the first step whose
    target, the cursor minus the tier duration, is zero or less. *)
Theorem nonpositive_target_selects_nothing :
  (∀ target pool, target ≤ 0 → closest target pool = None) ∧
  (∀ target pool c, closest target pool = Some c → 0 < c) ∧
  (∀ now existing, ∃ keep,
     keep_timestamps now existing = Ok keep ∧ Forall (λ t, 0 < t) keep) ∧
  (∀ next rest anchor pool keep,
     anchor - time_intervals next ≤ 0 →
     select_loop (next :: rest) anchor pool keep = Ok keep).
Proof.
  split_and!.
  - intros target pool. apply closest_nonpositive_target.
  - intros target pool c. apply closest_positive.
  - intros now existing.
    destruct (select_total wanted_snapshots now existing) as [keep Hk].
    exists keep. split; [done|]. by destruct (select_sound _ _ _ _ Hk) as (_ & _ & ?).
  - intros next rest anchor pool keep Ht. cbn.
    by rewrite closest_nonpositive_target.
Qed.

Lemma nonpositive_target_selects_nothing_witness :
  closest (-5) [3; -5; 0] = None ∧
  0 < 9 ∧
  select_loop [day; week] 86400 [50; 86000] [7] = Ok [7].
Proof.
  destruct nonpositive_target_selects_nothing as (H1 & H2 & _ & H4).
  split_and!.
  - apply (H1 (-5) [3; -5; 0]). lia.
  - apply (H2 10 [13; 9; 11; 7] 9). reflexivity.
  - apply (H4 day [week] 86400 [50; 86000] [7]). cbn. lia.
Defined.

(** ** The run *)

Example sample_first_sweep_home :
  phase1_step (sample_world 0) sample_args 1000000 "home" home_config initial
  = (Ok home_config_resolved,
     State ["Filesystem type ext4 of mountpoint /home not supported, unable to create snapshot!"]
           [Realpath "/backup/home.borg"; DiskPartitions]).
Proof. vm_compute. reflexivity. Qed.

(** *** Running computations step by step *)

Lemma bind_inv_Ok {A B} (m : M A) (k : A → M B) st b st2 :
  bind m k st = (Ok b, st2) →
  ∃ a st1, m st = (Ok a, st1) ∧ k a st1 = (Ok b, st2).
Proof.
  unfold bind. destruct (m st) as [[a|e] st1]; [eauto|discriminate].
Qed.

Lemma bind_Ok {A B} (m : M A) (k : A → M B) st a st1 :
  m st = (Ok a, st1) → bind m k st = k a st1.
Proof. unfold bind. by intros ->. Qed.

Lemma lift_inv_Ok {A} (r : result A) st a st1 :
  lift r st = (Ok a, st1) → r = Ok a ∧ st1 = st.
Proof. unfold lift. by intros [= -> ->]. Qed.

Lemma getitem_inv_Ok config key v :
  getitem config key = Ok v → config !! key = Some v.
Proof. unfold getitem. destruct (config !! key); [by intros [= ->]|done]. Qed.

Lemma as_str_inv_Ok v s : as_str v = Ok s → v = PStr s.
Proof. destruct v; cbn; congruence. Qed.

(** *** Computations that only append *)

Lemma appends_ret {A} (a : A) : appends (ret a).
Proof. intros h. exists (Ok a), [], []. intros ms. by rewrite !app_nil_r. Qed.

Lemma appends_lift {A} (r : result A) : appends (lift r).
Proof. intros h. exists r, [], []. intros ms. by rewrite !app_nil_r. Qed.

Lemma appends_ask {A} c (answer : list call → A) : appends (ask c answer).
Proof.
  intros h. exists (Ok (answer h)), [], [c]. intros ms. by rewrite app_nil_r.
Qed.

Lemma appends_record_message m : appends (record_message m).
Proof. intros h. exists (Ok tt), [m], []. intros ms. by rewrite app_nil_r. Qed.

Lemma appends_bind {A B} (m : M A) (k : A → M B) :
  appends m → (∀ a, appends (k a)) → appends (bind m k).
Proof.
  intros Hm Hk h. destruct (Hm h) as (r & d & calls & Hrun).
  destruct r as [a|e].
  - destruct (Hk a (h ++ calls)) as (r' & d' & calls' & Hrun').
    exists r', (d ++ d'), (calls ++ calls'). intros ms.
    unfold bind. by rewrite Hrun, Hrun', !app_assoc.
  - exists (Raise e), d, calls. intros ms. unfold bind. by rewrite Hrun.
Qed.

Lemma calls_only_ret {A} (a : A) : calls_only (ret a).
Proof. intros h. exists (Ok a), []. intros ms. by rewrite app_nil_r. Qed.

Lemma calls_only_lift {A} (r : result A) : calls_only (lift r).
Proof. intros h. exists r, []. intros ms. by rewrite app_nil_r. Qed.

Lemma calls_only_ask {A} c (answer : list call → A) : calls_only (ask c answer).
Proof. intros h. by exists (Ok (answer h)), [c]. Qed.

Lemma calls_only_bind {A B} (m : M A) (k : A → M B) :
  calls_only m → (∀ a, calls_only (k a)) → calls_only (bind m k).
Proof.
  intros Hm Hk h. destruct (Hm h) as (r & calls & Hrun).
  destruct r as [a|e].
  - destruct (Hk a (h ++ calls)) as (r' & calls' & Hrun').
    exists r', (calls ++ calls'). intros ms.
    unfold bind. by rewrite Hrun, Hrun', app_assoc.
  - exists (Raise e), calls. intros ms. unfold bind. by rewrite Hrun.
Qed.

Lemma calls_only_appends {A} (k : M A) : calls_only k → appends k.
Proof.
  intros Hk h. destruct (Hk h) as (r & calls & Hrun).
  exists r, [], calls. intros ms. by rewrite app_nil_r.
Qed.

Ltac calls_only_step :=
  first
    [ apply calls_only_ret | apply calls_only_lift | apply calls_only_ask
    | apply calls_only_bind; [|intros ?]
    | match goal with
      | |- calls_only (if ?b then _ else _) => destruct b
      | |- calls_only (match ?x with _ => _ end) => destruct x
      | |- calls_only (let _ := _ in _) => cbn zeta
      end ].

Lemma calls_only_run_command w check command cwd repo :
  calls_only (run_command w check command cwd repo).
Proof. unfold run_command, raise. repeat calls_only_step. Qed.

Lemma calls_only_backup w name config snapshot_path :
  calls_only (backup w name config snapshot_path).
Proof.
  unfold backup. repeat first [apply calls_only_run_command | calls_only_step].
Qed.

Lemma calls_only_prune_backups w name config :
  calls_only (prune_backups w name config).
Proof.
  unfold prune_backups.
  repeat first [apply calls_only_run_command | calls_only_step].
Qed.

Lemma calls_only_delete_unkept w btrfs dir keep snapshots :
  calls_only (delete_unkept w btrfs dir keep snapshots).
Proof.
  induction snapshots as [|s rest IH]; cbn [delete_unkept].
  - apply calls_only_ret.
  - repeat first [apply IH | apply calls_only_run_command | calls_only_step].
Qed.

Lemma calls_only_prune_target_snapshots w args now config :
  calls_only (prune_target_snapshots w args now config).
Proof.
  unfold prune_target_snapshots, prune_snapshots.
  repeat first [apply calls_only_delete_unkept | calls_only_step].
Qed.

Lemma calls_only_after_backup w args now name config :
  calls_only (after_backup w args now name config).
Proof.
  unfold after_backup. apply calls_only_bind; [apply calls_only_prune_backups|].
  intros _. apply calls_only_prune_target_snapshots.
Qed.

(** The second sweep reads no message: from any point on, what it returns,
    records and calls depends on the calls made so far only. *)
Lemma appends_phase2_step w args now name config :
  appends (phase2_step w args now name config).
Proof.
  unfold phase2_step. cbn zeta.
  apply appends_bind; [apply calls_only_appends, calls_only_backup|].
  intros succeeded. apply appends_bind.
  - destruct (negb succeeded); [apply appends_record_message|apply appends_ret].
  - intros _. apply calls_only_appends, calls_only_after_backup.
Qed.

Lemma appends_phase2 w args now config : appends (phase2 w args now config).
Proof.
  induction config as [|[name backup_config] rest IH]; cbn [phase2].
  - apply appends_ret.
  - apply appends_bind; [|intros _; apply IH].
    destruct (skipped args name); [apply appends_ret|apply appends_phase2_step].
Qed.

(** *** The external commands *)

Lemma run_command_eq w check command cwd repo st :
  run_command w check command cwd repo st =
  (match run w (history st) command cwd repo with
   | NotStarted => Raise OSError
   | Completed returncode out =>
       if check && negb (returncode =? 0)
       then Raise (CalledProcessError command returncode)
       else Ok (returncode, out)
   end,
   State (messages st) (history st ++ [Run command cwd repo])).
Proof.
  unfold run_command, bind, ask, raise, lift, ret.
  destruct (run w (history st) command cwd repo) as [rc out|]; [|done].
  by destruct (check && negb (rc =? 0)).
Qed.

(** A backup that returns at all has found its settings and made exactly one
    call, the [borg create] run, and has recorded nothing. *)
Lemma backup_inv_Ok w name config snapshot_path st succeeded st1 :
  backup w name config snapshot_path st = (Ok succeeded, st1) →
  ∃ mp repository borg excludes nicev source returncode out,
    config !! "mountpoint" = Some mp ∧
    config !! "repository" = Some (PStr repository) ∧
    config !! "borg" = Some (PStr borg) ∧
    config !! "nice" = Some nicev ∧
    as_str (if negb (truthy snapshot_path) then mp else snapshot_path) = Ok source ∧
    run w (history st) (backup_command borg excludes (truthy nicev))
      (Some source) (Some repository) = Completed returncode out ∧
    succeeded = (returncode =? 0) ∧
    st1 = State (messages st)
            (history st ++ [Run (backup_command borg excludes (truthy nicev))
                              (Some source) (Some repository)]).
Proof.
  unfold backup. intros Hrun.
  repeat match type of Hrun with
  | bind (lift _) _ _ = _ =>
      apply bind_inv_Ok in Hrun as (? & ? & [? ->]%lift_inv_Ok & Hrun)
  end.
  apply bind_inv_Ok in Hrun as ([rc out] & st' & Hcmd & Hret).
  rewrite run_command_eq in Hcmd. injection Hret as <- <-.
  repeat match goal with
  | H : getitem _ _ = Ok _ |- _ => apply getitem_inv_Ok in H
  | H : as_str ?v = Ok _ |- _ => is_var v; apply as_str_inv_Ok in H; subst v
  end.
  injection Hcmd as Hcmd <-.
  destruct (run w _ _ _ _) as [rc' out'|] eqn:Hw; [|discriminate].
  cbn in Hcmd. injection Hcmd as -> ->.
  eauto 20.
Qed.

(** With its settings in place, the archive pruning is one [borg prune] run
    on the target's repository, checked. *)
Lemma prune_backups_eq w name config mp repository borg nicev st :
  config !! "mountpoint" = Some mp →
  config !! "repository" = Some (PStr repository) →
  config !! "borg" = Some (PStr borg) →
  config !! "nice" = Some nicev →
  prune_backups w name config st =
  (match run w (history st) (prune_command borg (truthy nicev)) None (Some repository) with
   | NotStarted => Raise OSError
   | Completed returncode _ =>
       if negb (returncode =? 0)
       then Raise (CalledProcessError (prune_command borg (truthy nicev)) returncode)
       else Ok tt
   end,
   State (messages st)
     (history st ++ [Run (prune_command borg (truthy nicev)) None (Some repository)])).
Proof.
  intros Hmp Hrepo Hborg Hnice.
  unfold prune_backups, bind, lift, getitem.
  rewrite Hmp, Hrepo, Hborg, Hnice. cbn -[run_command prune_command].
  rewrite run_command_eq.
  destruct (run w _ _ _ _) as [rc out|]; [|done].
  cbn. by destruct (rc =? 0).
Qed.

(** After the backup: the archive pruning of the same repository comes
    first, and no message is recorded. *)
Lemma after_backup_eq w args now name config mp repository borg nicev h :
  config !! "mountpoint" = Some mp →
  config !! "repository" = Some (PStr repository) →
  config !! "borg" = Some (PStr borg) →
  config !! "nice" = Some nicev →
  ∃ r calls, ∀ ms,
    after_backup w args now name config (State ms h) =
    (r, State ms (h ++ [Run (prune_command borg (truthy nicev)) None (Some repository)]
                   ++ calls)).
Proof.
  intros Hmp Hrepo Hborg Hnice.
  set (pruned := h ++ [Run (prune_command borg (truthy nicev)) None (Some repository)]).
  destruct (calls_only_prune_target_snapshots w args now config pruned)
    as (r & calls & Hsnap).
  destruct (run w h (prune_command borg (truthy nicev)) None (Some repository))
    as [rc out|] eqn:Hw.
  - destruct (rc =? 0) eqn:Hrc.
    + exists r, calls. intros ms. unfold after_backup, bind.
      rewrite (prune_backups_eq _ _ _ _ _ _ _ _ Hmp Hrepo Hborg Hnice).
      cbn [history messages]. rewrite Hw, Hrc. cbn [negb].
      fold pruned. by rewrite Hsnap, app_assoc.
    + exists (Raise (CalledProcessError (prune_command borg (truthy nicev)) rc)), [].
      intros ms. unfold after_backup, bind.
      rewrite (prune_backups_eq _ _ _ _ _ _ _ _ Hmp Hrepo Hborg Hnice).
      cbn [history messages]. rewrite Hw, Hrc. cbn [negb]. by rewrite app_nil_r.
  - exists (Raise OSError), []. intros ms. unfold after_backup, bind.
    rewrite (prune_backups_eq _ _ _ _ _ _ _ _ Hmp Hrepo Hborg Hnice).
    cbn [history messages]. rewrite Hw. by rewrite app_nil_r.
Qed.

(** C7: when the backup of a target returns failure, the step of that target
    records exactly the one warning naming it, runs [borg prune] on the same
    repository right after the [borg create] run, and the sweep goes on with
    the next target unless the pruning raises; the result of the step is
    that of the pruning, as it would be without the warning, and the rest of
    the sweep returns, calls and records the same with or without it. *)
Theorem backup_failure_recorded_not_fatal (w : World) (args : Args) (now : Z)
    (name : string) (config : gmap string pyval)
    (rest : list (string * gmap string pyval)) (st st1 : state) :
  skipped args name = false →
  backup w name config (default PNone (config !! "snapshot")) st = (Ok false, st1) →
  ∃ r st2 borg excludes nicev source repository calls,
    config !! "repository" = Some (PStr repository) ∧
    config !! "borg" = Some (PStr borg) ∧
    config !! "nice" = Some nicev ∧
    phase2_step w args now name config st = (r, st2) ∧
    messages st2 = messages st ++ [backup_failed_message name] ∧
    history st2 =
      history st
      ++ [Run (backup_command borg excludes (truthy nicev)) (Some source) (Some repository);
          Run (prune_command borg (truthy nicev)) None (Some repository)]
      ++ calls ∧
    phase2 w args now ((name, config) :: rest) st =
      match r with
      | Ok _ => phase2 w args now rest st2
      | Raise e => (Raise e, st2)
      end ∧
    after_backup w args now name config st1 = (r, State (messages st) (history st2)) ∧
    ∃ r' recorded calls',
      phase2 w args now rest st2 =
        (r', State (messages st2 ++ recorded) (history st2 ++ calls')) ∧
      phase2 w args now rest (State (messages st) (history st2)) =
        (r', State (messages st ++ recorded) (history st2 ++ calls')).
Proof.
  intros Hskip Hbackup.
  pose proof Hbackup as Hb.
  apply backup_inv_Ok in Hb
    as (mp & repository & borg & excludes & nicev & source & rc & out &
        Hmp & Hrepo & Hborg & Hnice & _ & _ & _ & Hst1).
  assert (Hms : messages st1 = messages st) by (by rewrite Hst1).
  destruct (after_backup_eq w args now name config mp repository borg nicev
              (history st1) Hmp Hrepo Hborg Hnice) as (r & calls & Hafter).
  assert (Hstep : phase2_step w args now name config st =
    (r, State (messages st ++ [backup_failed_message name])
          (history st1 ++ [Run (prune_command borg (truthy nicev)) None (Some repository)]
             ++ calls))).
  { unfold phase2_step. cbn zeta. rewrite (bind_Ok _ _ _ _ _ Hbackup).
    cbn [negb]. unfold bind at 1, record_message. by rewrite Hafter, Hms. }
  eexists r, _, borg, excludes, nicev, source, repository, calls.
  split_and!; [done|done|done|exact Hstep|done| | | |].
  - cbn [history]. rewrite Hst1. cbn [history]. by rewrite <- app_assoc.
  - cbn [phase2]. rewrite Hskip. unfold bind at 1. rewrite Hstep. by destruct r.
  - cbn [history]. rewrite <- Hafter, <- Hms. by destruct st1.
  - cbn [history messages].
    destruct (appends_phase2 w args now rest
                (history st1 ++
                 [Run (prune_command borg (truthy nicev)) None (Some repository)]
                 ++ calls)) as (r' & recorded & calls' & Hrest).
    exists r', recorded, calls'. by rewrite !Hrest.
Qed.

Lemma backup_failure_recorded_not_fatal_witness :
  ∃ st2, phase2_step (sample_world 2) sample_args 1000000 "home"
           home_config_resolved initial = (Ok tt, st2) ∧
         messages st2 = ["Backup of home exited with non-zero exit code, check the logs!"].
Proof.
  destruct (backup_failure_recorded_not_fatal (sample_world 2) sample_args 1000000
              "home" home_config_resolved [] initial
              (State [] [Run (backup_command "/opt/borg" [] false)
                           (Some "/home") (Some "/backup/home.borg")]))
    as (r & st2 & borg & excludes & nicev & source & repository & calls &
        _ & _ & _ & Hstep & Hmsg & _).
  - reflexivity.
  - vm_compute. reflexivity.
  - exists st2. split; [|exact Hmsg].
    rewrite Hstep. f_equal.
    assert (Hrun : phase2_step (sample_world 2) sample_args 1000000 "home"
                     home_config_resolved initial
                   = (Ok tt, snd (phase2_step (sample_world 2) sample_args 1000000
                                    "home" home_config_resolved initial)))
      by (vm_compute; reflexivity).
    rewrite Hstep in Hrun. by injection Hrun.
Defined.

(** C9: the partitions counted are those whose mount point equals the given
    one; when their number is not one (none, or several) [filesystem_type]
    raises, and when it is one it returns that partition's type. *)
Theorem filesystem_type_single_match (w : World) (mp : pyval) (st : state) :
  (∀ p, p ∈ matching_partitions (disk_partitions w (history st)) mp ↔
        p ∈ disk_partitions w (history st) ∧ PStr (mountpoint p) = mp) ∧
  (length (matching_partitions (disk_partitions w (history st)) mp) ≠ 1%nat →
   filesystem_type w mp st =
   (Raise (RuntimeError (MatchingPartitions
             (length (matching_partitions (disk_partitions w (history st)) mp)))),
    State (messages st) (history st ++ [DiskPartitions]))) ∧
  (length (matching_partitions (disk_partitions w (history st)) mp) = 1%nat →
   ∃ p, matching_partitions (disk_partitions w (history st)) mp = [p] ∧
        filesystem_type w mp st =
        (Ok (fstype p), State (messages st) (history st ++ [DiskPartitions]))).
Proof.
  split_and!.
  - intros p. unfold matching_partitions. rewrite list_elem_of_filter. tauto.
  - intros Hlen. unfold filesystem_type, bind, ask, lift, filesystem_type_of.
    by rewrite bool_decide_eq_false_2.
  - intros Hlen. unfold filesystem_type, bind, ask, lift, filesystem_type_of.
    rewrite bool_decide_eq_true_2 by done.
    destruct (matching_partitions _ mp) as [|p [|q found]]; try discriminate.
    by exists p.
Qed.

Lemma filesystem_type_single_match_witness :
  filesystem_type (sample_world 0) (PStr "/home") initial
    = (Ok "ext4", State [] [DiskPartitions]) ∧
  filesystem_type (sample_world 0) (PStr "/nowhere") initial
    = (Raise (RuntimeError (MatchingPartitions 0)), State [] [DiskPartitions]).
Proof.
  split.
  - destruct (proj2 (proj2 (filesystem_type_single_match (sample_world 0)
                              (PStr "/home") initial))) as (p & Hp & Hrun).
    + reflexivity.
    + rewrite Hrun. injection Hp as <-. reflexivity.
  - apply (proj1 (proj2 (filesystem_type_single_match (sample_world 0)
                           (PStr "/nowhere") initial))).
    vm_compute. lia.
Defined.

Example filesystem_type_two_mounts :
  filesystem_type_of
    [ {| device := "/dev/sda1"; mountpoint := "/mnt"; fstype := "ext4" |};
      {| device := "/dev/sdb1"; mountpoint := "/mnt"; fstype := "btrfs" |} ]
    (PStr "/mnt")
  = Raise (RuntimeError (MatchingPartitions 2)).
Proof. reflexivity. Qed.

(** A mount point that matched a partition is a string. *)
Lemma filesystem_type_of_str partitions mp fs :
  filesystem_type_of partitions mp = Ok fs → ∃ s, mp = PStr s.
Proof.
  unfold filesystem_type_of.
  destruct (bool_decide _); cbn; [|discriminate].
  destruct (matching_partitions partitions mp) as [|p found] eqn:E; [discriminate|].
  intros _. assert (p ∈ matching_partitions partitions mp) as Hp by (rewrite E; left).
  apply list_elem_of_filter in Hp as [<- _]. eauto.
Qed.

(** The second sweep hands [backup] the target's [snapshot] entry, or [None]
    when there is none. *)
Lemma phase2_step_backup w args now name config :
  phase2_step w args now name config =
  bind (backup w name config (default PNone (config !! "snapshot")))
    (λ succeeded,
       bind (if negb succeeded then record_message (backup_failed_message name)
             else ret tt)
         (λ _, after_backup w args now name config)).
Proof. reflexivity. Qed.

(** With its settings in place and well typed, the backup is one
    [borg create] run in the source directory. *)
Lemma backup_eq w name config snapshot_path mp repository borg excludes items
    nicev source st :
  config !! "mountpoint" = Some mp →
  config !! "repository" = Some (PStr repository) →
  config !! "borg" = Some (PStr borg) →
  config !! "excludes" = Some excludes →
  as_items excludes = Ok items →
  config !! "nice" = Some nicev →
  as_str (if negb (truthy snapshot_path) then mp else snapshot_path) = Ok source →
  backup w name config snapshot_path st =
  (match run w (history st) (backup_command borg items (truthy nicev))
           (Some source) (Some repository) with
   | Completed returncode _ => Ok (returncode =? 0)
   | NotStarted => Raise OSError
   end,
   State (messages st)
     (history st ++ [Run (backup_command borg items (truthy nicev))
                       (Some source) (Some repository)])).
Proof.
  intros Hmp Hrepo Hborg Hex Hitems Hnice Hsource.
  unfold backup, bind, lift, getitem.
  rewrite Hmp, Hrepo, Hborg, Hex, Hitems, Hnice.
  cbn -[run_command backup_command truthy]. rewrite Hsource, run_command_eq.
  by destruct (run w _ _ _ _).
Qed.

(** What the first sweep does to a target whose file system type turns out
    not to be snapshotable: it looks up the partitions (after resolving a
    relative repository path), runs no command, records the one warning,
    and leaves the [snapshot] entry as it found it. *)
Lemma phase1_step_unsupported w args now name config st config' st1 fs :
  phase1_step w args now name config st = (Ok config', st1) →
  config' !! "fstype" = Some (PStr fs) →
  fs ∉ snapshotable_fstypes →
  ∃ mp repository excludes calls,
    config' !! "mountpoint" = Some (PStr mp) ∧
    config' !! "repository" = Some (PStr repository) ∧
    config' !! "excludes" = Some excludes ∧
    config' !! "borg" = Some (PStr (with_borg args)) ∧
    config' !! "nice" = Some (nice_value args) ∧
    config' !! "snapshot" = config !! "snapshot" ∧
    messages st1 = messages st ++ [unsupported_message fs mp] ∧
    history st1 = history st ++ calls ∧
    Forall (λ c, c = DiskPartitions ∨ ∃ path, c = Realpath path) calls.
Proof.
  unfold phase1_step. cbn zeta.
  set (config0 := match config !! "excludes" with
                  | Some _ => config
                  | None => <["excludes":=PList []]> config
                  end).
  assert (Hsnap0 : config0 !! "snapshot" = config !! "snapshot").
  { subst config0. destruct (config !! "excludes"); [done|].
    by rewrite lookup_insert_ne. }
  assert (Hex0 : ∃ excludes, config0 !! "excludes" = Some excludes).
  { subst config0. destruct (config !! "excludes") as [v|] eqn:E; [eauto|].
    rewrite lookup_insert_eq. eauto. }
  destruct Hex0 as [excludes Hex0].
  clearbody config0. intros Hrun Hfs Hnot.
  apply bind_inv_Ok in Hrun as (v & ? & [Hrepo ->]%lift_inv_Ok & Hrun).
  apply getitem_inv_Ok in Hrepo.
  apply bind_inv_Ok in Hrun as (repo & ? & [->%as_str_inv_Ok ->]%lift_inv_Ok & Hrun).
  apply bind_inv_Ok in Hrun as (config1 & sta & Hresolve & Hrun).
  assert (Hcfg1 : ∃ repository calls,
    config1 !! "repository" = Some (PStr repository) ∧
    config1 !! "excludes" = Some excludes ∧
    config1 !! "snapshot" = config !! "snapshot" ∧
    (∀ key, key ≠ "repository" → config1 !! key = config0 !! key) ∧
    sta = State (messages st) (history st ++ calls) ∧
    Forall (λ c, c = DiskPartitions ∨ ∃ path, c = Realpath path) calls).
  { destruct (negb (is_absolute repo)).
    - unfold bind, ask, ret in Hresolve. injection Hresolve as <- <-.
      eexists _, [_]. split_and!; [by rewrite lookup_insert_eq
        |by rewrite lookup_insert_ne|by rewrite lookup_insert_ne
        |by intros key Hkey; rewrite lookup_insert_ne|done|].
      constructor; [right; eauto|constructor].
    - unfold ret in Hresolve. injection Hresolve as <- <-.
      exists repo, []. split_and!; [done|done|done|done| |constructor].
      destruct st. cbn. by rewrite app_nil_r. }
  destruct Hcfg1 as (repository & calls & Hrepo1 & Hex1 & Hsnap1 & Hsame & -> & Hcalls).
  apply bind_inv_Ok in Hrun as (mp & ? & [Hmp ->]%lift_inv_Ok & Hrun).
  apply getitem_inv_Ok in Hmp.
  apply bind_inv_Ok in Hrun as (fs0 & stb & Hfstype & Hrun).
  unfold filesystem_type, bind, ask, lift in Hfstype. cbn in Hfstype.
  injection Hfstype as Hfstype <-.
  apply bind_inv_Ok in Hrun as (mps & ? & [->%as_str_inv_Ok ->]%lift_inv_Ok & Hrun).
  destruct (bool_decide (fs0 ∈ snapshotable_fstypes)) eqn:Hsupported.
  - (* the snapshot branch stores a snapshotable type *)
    apply bind_inv_Ok in Hrun as (subvolume & ? & _ & Hrun).
    apply bind_inv_Ok in Hrun as (? & ? & _ & Hrun).
    unfold ret in Hrun. injection Hrun as <- <-.
    rewrite !lookup_insert_ne, lookup_insert_eq in Hfs by done.
    injection Hfs as <-. by apply bool_decide_eq_true in Hsupported.
  - apply bind_inv_Ok in Hrun as ([] & ? & Hrec & Hrun).
    unfold record_message in Hrec. injection Hrec as <-.
    unfold ret in Hrun. injection Hrun as <- <-.
    rewrite !lookup_insert_ne, lookup_insert_eq in Hfs by done.
    injection Hfs as <-.
    exists mps, repository, excludes, (calls ++ [DiskPartitions]).
    split_and!.
    + by rewrite !lookup_insert_ne.
    + by rewrite !lookup_insert_ne.
    + by rewrite !lookup_insert_ne.
    + by rewrite lookup_insert_ne, lookup_insert_eq.
    + by rewrite lookup_insert_eq.
    + by rewrite !lookup_insert_ne.
    + done.
    + cbn. by rewrite app_assoc.
    + apply Forall_app. split; [done|]. constructor; [by left|constructor].
Qed.

(** C8, as the code has it: for a target whose resolved file system type is
    not snapshotable and whose configuration entry brings no [snapshot]
    field of its own (none, or an empty one), the first sweep records
    exactly one warning, which names the file system type and the mount
    point, runs no command (so takes no snapshot) and adds no snapshot path;
    the backup step of the second sweep then runs [borg create] in the live
    mount point. *)
Theorem unsupported_filesystem_backs_up_live (w : World) (args : Args) (now : Z)
    (name : string) (config config' : gmap string pyval) (st st1 : state)
    (fs : string) :
  phase1_step w args now name config st = (Ok config', st1) →
  config' !! "fstype" = Some (PStr fs) →
  fs ∉ snapshotable_fstypes →
  truthy (default PNone (config !! "snapshot")) = false →
  ∃ mp repository excludes calls,
    config' !! "mountpoint" = Some (PStr mp) ∧
    config' !! "repository" = Some (PStr repository) ∧
    config' !! "excludes" = Some excludes ∧
    messages st1 = messages st ++ [unsupported_message fs mp] ∧
    history st1 = history st ++ calls ∧
    Forall (λ c, ∀ command cwd repo, c ≠ Run command cwd repo) calls ∧
    config' !! "snapshot" = config !! "snapshot" ∧
    ∀ items st2, as_items excludes = Ok items →
      backup w name config' (default PNone (config' !! "snapshot")) st2 =
      (match run w (history st2)
               (backup_command (with_borg args) items (truthy (nice_value args)))
               (Some mp) (Some repository) with
       | Completed returncode _ => Ok (returncode =? 0)
       | NotStarted => Raise OSError
       end,
       State (messages st2)
         (history st2 ++
          [Run (backup_command (with_borg args) items (truthy (nice_value args)))
             (Some mp) (Some repository)])).
Proof.
  intros Hrun Hfs Hnot Hfalsy.
  destruct (phase1_step_unsupported _ _ _ _ _ _ _ _ _ Hrun Hfs Hnot)
    as (mp & repository & excludes & calls & Hmp & Hrepo & Hex & Hborg & Hnice &
        Hsnap & Hmsg & Hhist & Hcalls).
  exists mp, repository, excludes, calls.
  split_and!; [done|done|done|done|done| |done|].
  - eapply Forall_impl; [exact Hcalls|].
    intros c [->|[path ->]] command cwd repo; discriminate.
  - intros items st2 Hitems.
    apply (backup_eq w name config' _ (PStr mp) repository (with_borg args)
             excludes items (nice_value args) mp st2); try done.
    by rewrite Hsnap, Hfalsy.
Qed.

Lemma unsupported_filesystem_backs_up_live_witness :
  ∃ mp repository excludes calls,
    home_config_resolved !! "mountpoint" = Some (PStr mp) ∧
    home_config_resolved !! "repository" = Some (PStr repository) ∧
    home_config_resolved !! "excludes" = Some excludes ∧
    messages (State [unsupported_message "ext4" "/home"]
                [Realpath "/backup/home.borg"; DiskPartitions])
      = messages initial ++ [unsupported_message "ext4" mp] ∧
    history (State [unsupported_message "ext4" "/home"]
               [Realpath "/backup/home.borg"; DiskPartitions])
      = history initial ++ calls ∧
    Forall (λ c, ∀ command cwd repo, c ≠ Run command cwd repo) calls ∧
    home_config_resolved !! "snapshot" = home_config !! "snapshot" ∧
    ∀ items st2, as_items excludes = Ok items →
      backup (sample_world 0) "home" home_config_resolved
        (default PNone (home_config_resolved !! "snapshot")) st2 =
      (match run (sample_world 0) (history st2)
               (backup_command (with_borg sample_args) items
                  (truthy (nice_value sample_args)))
               (Some mp) (Some repository) with
       | Completed returncode _ => Ok (returncode =? 0)
       | NotStarted => Raise OSError
       end,
       State (messages st2)
         (history st2 ++
          [Run (backup_command (with_borg sample_args) items
                  (truthy (nice_value sample_args)))
             (Some mp) (Some repository)])).
Proof.
  apply (unsupported_filesystem_backs_up_live (sample_world 0) sample_args 1000000
           "home" home_config home_config_resolved initial _ "ext4").
  - vm_compute. reflexivity.
  - reflexivity.
  - unfold snapshotable_fstypes. intros [=]%list_elem_of_singleton.
  - reflexivity.
Defined.

(** C8 as the specification states it does not hold for every target: an
    entry that brings a [snapshot] field of its own is backed up from that
    path, although its file system type is not snapshotable and no snapshot
    was taken. *)
Lemma preset_snapshot_replaces_mount_point :
  main (sample_world 0) sample_args 1000000 [("home", home_config_with_snapshot)]
    initial
  = (Ok tt,
     State [unsupported_message "ext4" "/home"]
       [IsMount "/@snapshots"; Mkdir "/@snapshots";
        Realpath "/backup/home.borg"; DiskPartitions;
        Run (backup_command "/opt/borg" [] false)
          (Some "/elsewhere") (Some "/backup/home.borg");
        Run (prune_command "/opt/borg" false) None (Some "/backup/home.borg")]) ∧
  home_config_with_snapshot !! "mountpoint" = Some (PStr "/home") ∧
  ("ext4" ∉ snapshotable_fstypes) ∧
  ("/elsewhere" ≠ "/home").
Proof.
  split_and!.
  - vm_compute. reflexivity.
  - reflexivity.
  - unfold snapshotable_fstypes. intros [=]%list_elem_of_singleton.
  - discriminate.
Qed.

Example sample_run :
  main (sample_world 2) sample_args 1000000
    [("home", home_config); ("srv", srv_config)] initial
  = (Ok tt,
     State
       [unsupported_message "ext4" "/home";
        backup_failed_message "home";
        backup_failed_message "srv"]
       [IsMount "/@snapshots"; Mkdir "/@snapshots";
        Realpath "/backup/home.borg"; DiskPartitions; DiskPartitions;
        IsMount "/srv";
        Run ["/usr/bin/btrfs"; "subvolume"; "show"; "/srv"] None None;
        Run ["/usr/bin/btrfs"; "subvolume"; "snapshot"; "-r"; "/srv";
             "/@snapshots/srv-1000000"] None None;
        Run (backup_command "/opt/borg" [] false)
          (Some "/home") (Some "/backup/home.borg");
        Run (prune_command "/opt/borg" false) None (Some "/backup/home.borg");
        Run (backup_command "/opt/borg" [] false)
          (Some "/@snapshots/srv-1000000") (Some "/backup/srv.borg");
        Run (prune_command "/opt/borg" false) None (Some "/backup/srv.borg");
        Listdir "/@snapshots"]).
Proof. vm_compute. reflexivity. Qed.

(** * Further properties *)

(** ** Retention *)

Lemma select_nil wanted now : select wanted now [] = Ok [].
Proof. by destruct wanted. Qed.

Lemma time_intervals_at_least_day i : time_intervals day ≤ time_intervals i.
Proof. destruct i; cbn; lia. Qed.

(** Whatever is kept was within reach of the target of some tier. *)
Lemma select_within_reach wanted now : ∀ actual keep,
  select wanted now actual = Ok keep →
  Forall (λ t, 0 < t < 2 * (now - time_intervals day)) keep.
Proof.
  induction wanted as [|next wanted IH]; intros actual keep Hsel.
  - injection Hsel as <-. constructor.
  - destruct (select_cons_cases next wanted now actual)
      as [[_ E]|(c & actual' & Hc & Hr & E)]; rewrite E in Hsel.
    + injection Hsel as <-. constructor.
    + destruct (select wanted now actual') as [picks|] eqn:Hp; [|done].
      injection Hsel as <-. constructor; [|by eapply IH].
      apply closest_Some in Hc as (_ & _ & _ & Hd & _).
      pose proof (time_intervals_at_least_day next). lia.
Qed.

Lemma filter_all {A} (P : A → Prop) `{!∀ x, Decision (P x)} (l : list A) :
  Forall P l → filter P l = l.
Proof.
  induction 1 as [|x l Hx _ IH]; [done|].
  by rewrite filter_cons_True, IH.
Qed.

Lemma submseteq_NoDup_l (l k : list Z) : l ⊆+ k → NoDup k → NoDup l.
Proof.
  intros [k' Hk]%submseteq_Permutation Hnd. rewrite Hk in Hnd.
  by apply NoDup_app in Hnd as [? _].
Qed.

(** While the target stays the same, the pool is emptied before the loop
    stops, if all of it is within reach and the rounds suffice. *)
Lemma select_takes_all n rest now : ∀ actual,
  (length actual ≤ n)%nat →
  Forall (λ x, Z.abs (now - time_intervals day - x) < now - time_intervals day) actual →
  ∃ keep, select (replicate n day ++ rest) now actual = Ok keep ∧ keep ≡ₚ actual.
Proof.
  induction n as [|n IH]; intros actual Hlen Hreach.
  - destruct actual; [|cbn in Hlen; lia]. exists []. by rewrite select_nil.
  - change (replicate (S n) day ++ rest) with (day :: replicate n day ++ rest).
    destruct (select_cons_cases day (replicate n day ++ rest) now actual)
      as [[Hc E]|(c & actual' & Hc & Hr & E)]; rewrite E.
    + exists []. split; [done|]. destruct actual as [|x actual]; [done|].
      apply Forall_cons in Hreach as [Hx _].
      pose proof (closest_None _ _ Hc x (list_elem_of_here _ _)). lia.
    + pose proof (list_remove_perm _ _ _ Hr) as Hperm.
      destruct (IH actual') as (picks & -> & Hpicks).
      * apply Permutation_length in Hperm. cbn in Hperm. lia.
      * rewrite Hperm in Hreach. by apply Forall_cons in Hreach as [_ ?].
      * exists (c :: picks). split; [done|]. by rewrite Hperm, Hpicks.
Qed.

(** During the rounds of the first tier every pick is at least as close to
    the tier's target as anything the loop ends up not keeping. *)
Lemma select_first_tier_nearest n rest now : ∀ actual keep,
  select (replicate n day ++ rest) now actual = Ok keep →
  ∀ (i : nat) k x, (i < n)%nat → keep !! i = Some k → x ∈ actual → x ∉ keep →
    Z.abs (now - time_intervals day - k) ≤ Z.abs (now - time_intervals day - x).
Proof.
  induction n as [|n IH]; intros actual keep Hsel i k x Hi Hk Hx Hnot; [lia|].
  change (replicate (S n) day ++ rest) with (day :: replicate n day ++ rest) in Hsel.
  destruct (select_cons_cases day (replicate n day ++ rest) now actual)
    as [[_ E]|(c & actual' & Hc & Hr & E)]; rewrite E in Hsel.
  - injection Hsel as <-. done.
  - destruct (select (replicate n day ++ rest) now actual') as [picks|] eqn:Hp; [|done].
    injection Hsel as <-. destruct i as [|i].
    + injection Hk as <-. apply closest_Some in Hc as (_ & _ & _ & _ & Hmin & _).
      by apply Hmin.
    + apply (IH actual' picks Hp i k x); [lia|done| |].
      * rewrite (list_remove_perm _ _ _ Hr) in Hx.
        apply elem_of_cons in Hx as [->|Hx]; [|done].
        exfalso. apply Hnot. left.
      * intros Hin. apply Hnot. by right.
Qed.

(** X1: every kept timestamp lies strictly between 0 and twice the first
    target, [now - 86400]; a snapshot stamped later than that is never kept. *)
Theorem kept_below_twice_daily_target (now : Z) (existing : list Z) :
  ∃ keep, keep_timestamps now existing = Ok keep ∧
          Forall (λ t, 0 < t < 2 * (now - 86400)) keep.
Proof.
  destruct (select_total wanted_snapshots now existing) as [keep Hk].
  exists keep. split; [done|]. exact (select_within_reach _ _ _ _ Hk).
Qed.

(** X2: when the existing timestamps are pairwise distinct, what survives the
    pruning is the keep list up to order, so at most 17 entries survive. *)
Theorem distinct_timestamps_leave_at_most_17 (now : Z) (existing : list Z) :
  NoDup existing →
  ∃ keep, keep_timestamps now existing = Ok keep ∧
          surviving keep existing ≡ₚ keep ∧
          (length (surviving keep existing) ≤ 17)%nat.
Proof.
  intros Hnd.
  destruct (select_total wanted_snapshots now existing) as [keep Hk].
  destruct (select_sound _ _ _ _ Hk) as (Hsub & Hlen & _).
  assert (Hperm : surviving keep existing ≡ₚ keep).
  { apply NoDup_Permutation.
    - by apply NoDup_filter.
    - by eapply submseteq_NoDup_l.
    - intros x. unfold surviving. rewrite list_elem_of_filter.
      split; [tauto|]. intros Hx. split; [done|]. by eapply elem_of_submseteq. }
  exists keep. split_and!; [done|done|].
  rewrite Hperm. exact Hlen.
Qed.

Lemma distinct_timestamps_leave_at_most_17_witness :
  ∃ keep, keep_timestamps 1000000 [999900; 913000; 395000; 2000000] = Ok keep ∧
          surviving keep [999900; 913000; 395000; 2000000] ≡ₚ keep ∧
          (length (surviving keep [999900; 913000; 395000; 2000000]%Z) ≤ 17)%nat.
Proof.
  apply (distinct_timestamps_leave_at_most_17 1000000
           [999900; 913000; 395000; 2000000]).
  apply (bool_decide_unpack _). vm_compute. exact I.
Defined.

(** X3: when there are at most seven existing timestamps and each is within
    reach of the first target, all of them are kept and none is pruned. *)
Theorem up_to_seven_within_reach_all_kept (now : Z) (existing : list Z) :
  (length existing ≤ 7)%nat →
  Forall (λ x, Z.abs (now - 86400 - x) < now - 86400) existing →
  ∃ keep, keep_timestamps now existing = Ok keep ∧
          keep ≡ₚ existing ∧
          surviving keep existing = existing.
Proof.
  intros Hlen Hreach.
  destruct (select_takes_all 7 (replicate weekly week ++ replicate monthly month)
              now existing Hlen Hreach) as (keep & Hk & Hperm).
  exists keep. split_and!; [exact Hk|done|].
  apply filter_all. apply Forall_forall. intros x Hx. by rewrite Hperm.
Qed.

Lemma up_to_seven_within_reach_all_kept_witness :
  ∃ keep, keep_timestamps 1000000 [999900; 913000; 395000] = Ok keep ∧
          keep ≡ₚ [999900; 913000; 395000] ∧
          surviving keep [999900; 913000; 395000] = [999900; 913000; 395000].
Proof.
  apply (up_to_seven_within_reach_all_kept 1000000 [999900; 913000; 395000]).
  - cbn. lia.
  - repeat constructor; lia.
Defined.

(** X4: each of the first seven kept timestamps is at least as close to
    [now - 86400] as any existing timestamp that is not kept: the daily slots
    all measure from [now], not from the timestamp kept before. *)
Theorem daily_slots_keep_nearest (now : Z) (existing keep : list Z)
    (i : nat) (k x : Z) :
  keep_timestamps now existing = Ok keep →
  (i < 7)%nat → keep !! i = Some k → x ∈ existing → x ∉ keep →
  Z.abs (now - 86400 - k) ≤ Z.abs (now - 86400 - x).
Proof.
  intros Hk. exact (select_first_tier_nearest 7 _ now existing keep Hk i k x).
Qed.

Lemma daily_slots_keep_nearest_witness :
  Z.abs (1000000 - 86400 - 913000) ≤ Z.abs (1000000 - 86400 - 2000000).
Proof.
  apply (daily_slots_keep_nearest 1000000 [999900; 913000; 395000; 2000000]
           [913000; 999900; 395000] 0 913000 2000000).
  - reflexivity.
  - lia.
  - reflexivity.
  - do 3 right. left.
  - intros H. repeat (apply elem_of_cons in H as [H|H]; [discriminate|]).
    inversion H.
Defined.

(** ** Names and paths *)

Lemma prefix_append p t : String.prefix p (p +:+ t) = true.
Proof.
  induction p as [|a p IH]; simpl; [by destruct t|].
  destruct (Ascii.ascii_dec a a) as [_|Hne]; [exact IH|by destruct Hne].
Qed.

Lemma prefix_inv p s : String.prefix p s = true → ∃ t, s = p +:+ t.
Proof.
  revert s. induction p as [|a p IH]; intros s Hp; [by exists s|].
  destruct s as [|b s]; [done|]. cbn in Hp.
  destruct (Ascii.ascii_dec a b) as [->|]; [|done].
  destruct (IH s Hp) as [t ->]. by exists t.
Qed.

Lemma string_from_append p t : string_from (String.length p) (p +:+ t) = t.
Proof. induction p as [|a p IH]; [by destruct t|done]. Qed.

(** X5: [remove_prefix] takes a leading prefix off exactly once, and returns
    a string that does not start with the prefix as it is. *)
Theorem remove_prefix_strips_once (prefix : string) :
  (∀ t, remove_prefix (prefix +:+ t) prefix = t) ∧
  (∀ s, (∀ t, s ≠ prefix +:+ t) → remove_prefix s prefix = s).
Proof.
  split.
  - intros t. unfold remove_prefix. by rewrite prefix_append, string_from_append.
  - intros s Hs. unfold remove_prefix.
    destruct (String.prefix prefix s) eqn:Hp; [|done].
    apply prefix_inv in Hp as [t ->]. by destruct (Hs t).
Qed.

Lemma remove_prefix_strips_once_witness :
  remove_prefix "srv-913000" "srv-" = "913000" ∧
  remove_prefix "home-913000" "srv-" = "home-913000".
Proof.
  split.
  - apply (proj1 (remove_prefix_strips_once "srv-") "913000").
  - apply (proj2 (remove_prefix_strips_once "srv-") "home-913000").
    intros t. discriminate.
Defined.

Lemma replace_sep_no_sep s : "/"%char ∉ String.list_ascii_of_string (replace_sep s).
Proof.
  induction s as [|a s IH]; cbn; [by intros ?%elem_of_nil|].
  intros [Ha|Hin]%elem_of_cons; [|done].
  by destruct (decide (a = "/"%char)) as [->|]; [|rewrite bool_decide_eq_false_2 in Ha].
Qed.

Lemma replace_sep_fixed s :
  "/"%char ∉ String.list_ascii_of_string s → replace_sep s = s.
Proof.
  induction s as [|a s IH]; cbn; [done|]. intros Hs.
  rewrite bool_decide_eq_false_2, IH; [done| |].
  - intros Hin. apply Hs. by right.
  - intros ->. apply Hs. left.
Qed.

Lemma subvolume_name_no_sep subvolume :
  "/"%char ∉ String.list_ascii_of_string (subvolume_name_from_subvolume subvolume).
Proof.
  unfold subvolume_name_from_subvolume.
  destruct (String.eqb (replace_sep subvolume) "_").
  - cbn. intros H. repeat (apply elem_of_cons in H as [H|H]; [discriminate|]).
    by apply elem_of_nil in H.
  - apply replace_sep_no_sep.
Qed.

(** X6: the name made of a subvolume holds no path separator, naming a name
    changes nothing, and subvolumes that differ only in [/] against [_] get
    the same name. *)
Theorem subvolume_name_is_flat (subvolume : string) :
  ("/"%char ∉ String.list_ascii_of_string (subvolume_name_from_subvolume subvolume)) ∧
  subvolume_name_from_subvolume (subvolume_name_from_subvolume subvolume)
    = subvolume_name_from_subvolume subvolume ∧
  subvolume_name_from_subvolume (replace_sep subvolume)
    = subvolume_name_from_subvolume subvolume.
Proof.
  split_and!.
  - apply subvolume_name_no_sep.
  - unfold subvolume_name_from_subvolume at 1.
    rewrite (replace_sep_fixed _ (subvolume_name_no_sep subvolume)).
    unfold subvolume_name_from_subvolume.
    destruct (String.eqb (replace_sep subvolume) "_") eqn:E; [done|].
    by rewrite E.
  - unfold subvolume_name_from_subvolume.
    by rewrite (replace_sep_fixed _ (replace_sep_no_sep subvolume)).
Qed.

(** The last component of a snapshot path is never absolute, so the path
    stays below the snapshot directory. *)
Lemma snapshot_component_relative subvolume (now : Z) :
  is_absolute (subvolume_name_from_subvolume subvolume +:+ "-" +:+ pretty now) = false.
Proof.
  pose proof (subvolume_name_no_sep subvolume) as Hno.
  destruct (subvolume_name_from_subvolume subvolume) as [|a name]; [reflexivity|].
  unfold is_absolute.
  change (String.prefix "/" (String a (name +:+ "-" +:+ pretty now)) = false).
  change (String.prefix "/" (String a (name +:+ "-" +:+ pretty now)))
    with (if Ascii.ascii_dec "/" a
          then String.prefix "" (name +:+ "-" +:+ pretty now) else false).
  destruct (Ascii.ascii_dec "/" a) as [<-|]; [|done].
  exfalso. apply Hno. left.
Qed.

Lemma pathjoin_relative a b :
  is_absolute b = false →
  pathjoin a b = a +:+ b ∨ pathjoin a b = a +:+ "/" +:+ b.
Proof.
  intros Hb. unfold pathjoin. rewrite Hb.
  destruct (String.eqb a "" || ends_with_sep a); auto.
Qed.

Lemma app_string_inj_r a b c : a +:+ b = a +:+ c → b = c.
Proof. induction a as [|x a IH]; cbn; [done|]. intros [=]. auto. Qed.

(** ** The backup and the pruning of one target *)

Lemma bind_lift {A B} (r : result A) (k : A → M B) st :
  bind (lift r) k st = match r with Ok a => k a st | Raise e => (Raise e, st) end.
Proof. by destruct r. Qed.

Lemma getitem_inv_Raise config key e : getitem config key = Raise e → e = KeyError key.
Proof. unfold getitem. destruct (config !! key); [done|by intros [= <-]]. Qed.

Lemma as_str_inv_Raise v e : as_str v = Raise e → e = TypeError.
Proof. destruct v; cbn; congruence. Qed.

Lemma as_items_inv_Raise v e : as_items v = Raise e → e = TypeError.
Proof. destruct v; cbn; congruence. Qed.



(** X8: when [borg prune] of a target ends with a return code other than 0,
    the second sweep stops there with [CalledProcessError]: the prune run is
    its last call, and no later target is backed up or pruned. *)
Theorem failing_prune_stops_sweep (w : World) (args : Args) (now : Z)
    (name : string) (config : gmap string pyval)
    (rest : list (string * gmap string pyval)) (st st1 : state)
    (succeeded : bool) (borg repository : string) (nicev : pyval)
    (returncode : Z) (out : list string) :
  skipped args name = false →
  backup w name config (default PNone (config !! "snapshot")) st = (Ok succeeded, st1) →
  config !! "borg" = Some (PStr borg) →
  config !! "nice" = Some nicev →
  config !! "repository" = Some (PStr repository) →
  run w (history st1) (prune_command borg (truthy nicev)) None (Some repository)
    = Completed returncode out →
  returncode ≠ 0 →
  ∃ st2,
    phase2 w args now ((name, config) :: rest) st
      = (Raise (CalledProcessError (prune_command borg (truthy nicev)) returncode), st2) ∧
    history st2 =
      history st1 ++ [Run (prune_command borg (truthy nicev)) None (Some repository)].
Proof.
  intros Hskip Hbackup Hborg Hnice Hrepo Hw Hrc.
  pose proof Hbackup as Hb.
  apply backup_inv_Ok in Hb as (mp & ? & ? & ? & ? & ? & ? & ? & Hmp & _).
  assert (Hprune : ∀ s, history s = history st1 →
    prune_backups w name config s
    = (Raise (CalledProcessError (prune_command borg (truthy nicev)) returncode),
       State (messages s)
         (history st1 ++ [Run (prune_command borg (truthy nicev)) None (Some repository)]))).
  { intros s Hs. rewrite (prune_backups_eq _ _ _ _ _ _ _ _ Hmp Hrepo Hborg Hnice).
    rewrite Hs, Hw. by destruct (Z.eqb_spec returncode 0). }
  cbn [phase2]. rewrite Hskip. unfold bind at 1.
  unfold phase2_step. cbn zeta. rewrite (bind_Ok _ _ _ _ _ Hbackup).
  destruct succeeded; cbn [negb].
  - unfold bind at 1, ret. unfold after_backup, bind.
    rewrite (Hprune st1 eq_refl). eexists. split; reflexivity.
  - unfold bind at 1, record_message. unfold after_backup, bind.
    rewrite Hprune by done. eexists. split; reflexivity.
Qed.

Lemma failing_prune_stops_sweep_witness :
  ∃ st2,
    phase2
      {| disk_partitions := λ _, []; is_mountpoint := λ _ _, true;
         realpath := λ _ path, path; listdir := λ _ _, Ok [];
         run := λ _ command _ _,
           if bool_decide ("prune" ∈ command) then Completed 2 [] else Completed 0 [];
         subvolume_regex := λ _, Raise ReError;
         snapshot_timestamp := λ _, Raise ValueError |}
      sample_args 1000000
      [("home", home_config_resolved); ("srv", srv_config)] initial
    = (Raise (CalledProcessError (prune_command "/opt/borg" (truthy PNone)) 2), st2) ∧
    history st2 =
      history (State [] [Run (backup_command "/opt/borg" [] false)
                           (Some "/home") (Some "/backup/home.borg")])
      ++ [Run (prune_command "/opt/borg" (truthy PNone)) None (Some "/backup/home.borg")].
Proof.
  eapply (failing_prune_stops_sweep _ sample_args 1000000 "home" home_config_resolved
            [("srv", srv_config)] initial _ true "/opt/borg" "/backup/home.borg"
            PNone 2 []).
  - reflexivity.
  - vm_compute. reflexivity.
  - reflexivity.
  - reflexivity.
  - reflexivity.
  - reflexivity.
  - lia.
Defined.

(** ** The snapshot pruning *)

Lemma parse_timestamps_Forall2 w snapshots ts :
  parse_timestamps w snapshots = Ok ts →
  Forall2 (λ s t, snapshot_timestamp w s = Ok t) snapshots ts.
Proof.
  revert ts. induction snapshots as [|s rest IH]; intros ts Hp; cbn in Hp.
  - injection Hp as <-. constructor.
  - destruct (snapshot_timestamp w s) as [t|] eqn:Hs; [|done].
    destruct (parse_timestamps w rest) as [ts'|]; [|done].
    injection Hp as <-. constructor; auto.
Qed.

Lemma parse_timestamps_Raise w snapshots s e :
  s ∈ snapshots → snapshot_timestamp w s = Raise e →
  ∃ e', parse_timestamps w snapshots = Raise e'.
Proof.
  induction snapshots as [|s' rest IH]; intros Hin Hs; [by apply elem_of_nil in Hin|].
  cbn. destruct (snapshot_timestamp w s') as [t|e0] eqn:Hs'; [|eauto].
  apply elem_of_cons in Hin as [->|Hin]; [congruence|].
  destruct (IH Hin Hs) as [e' ->]. eauto.
Qed.

(** The deletion loop on names whose timestamps are known: it works through
    the names that are not kept, in order, and stops at the first deletion
    that fails. *)
Lemma delete_unkept_calls w btrfs dir keep snapshots ts :
  Forall2 (λ s t, snapshot_timestamp w s = Ok t) snapshots ts →
  ∀ st r st', delete_unkept w btrfs dir keep snapshots st = (r, st') →
  messages st' = messages st ∧
  ∃ n, history st' =
         history st ++
         take n ((λ s, Run [btrfs; "subvolume"; "delete"; pathjoin dir s] None None)
                 <$> (filter (λ st, st.2 ∉ keep) (zip snapshots ts)).*1) ∧
       (r = Ok tt →
        history st' =
          history st ++
          ((λ s, Run [btrfs; "subvolume"; "delete"; pathjoin dir s] None None)
           <$> (filter (λ st, st.2 ∉ keep) (zip snapshots ts)).*1)).
Proof.
  induction 1 as [|s t snapshots ts Hs _ IH]; intros st r st' Hrun.
  - cbn in Hrun. injection Hrun as <- <-. split; [done|].
    exists 0%nat. cbn. by rewrite app_nil_r.
  - cbn [delete_unkept] in Hrun. rewrite bind_lift, Hs in Hrun.
    cbn [zip zip_with]. rewrite filter_cons. cbn [snd].
    destruct (decide (t ∉ keep)) as [Hout|Hin].
    + rewrite bool_decide_eq_false_2 in Hrun by done.
      unfold bind at 1 in Hrun. unfold bind at 1 in Hrun.
      rewrite run_command_eq in Hrun. cbn [andb] in Hrun.
      destruct (run w (history st) _ None None) as [rc out|].
      * destruct (negb (rc =? 0)).
        -- injection Hrun as <- <-. split; [done|].
           exists 1%nat. cbn. split; [done|discriminate].
        -- unfold ret at 1 in Hrun.
           apply IH in Hrun as (Hm & n & Hh & Hall). split; [done|].
           exists (S n). cbn in *. split.
           ++ by rewrite Hh, <- app_assoc.
           ++ intros Hr. by rewrite (Hall Hr), <- app_assoc.
      * injection Hrun as <- <-. split; [done|].
        exists 1%nat. cbn. split; [done|discriminate].
    + rewrite bool_decide_eq_true_2 in Hrun by (by apply dec_stable).
      unfold bind at 1, ret at 1 in Hrun. by apply IH in Hrun.
Qed.

(** X9: once every name has given its timestamp, [prune_snapshots] records
    no message and calls nothing but [btrfs subvolume delete], on the names
    whose timestamp is not in the keep list, in listing order; a failing
    deletion ends it, and when it returns every such name has been deleted.
    A name whose timestamp is kept is never deleted. *)
Theorem prune_snapshots_deletes_unkept (w : World) (btrfs : string) (now : Z)
    (dir : string) (snapshots : list string) (ts : list Z) (st st' : state)
    (r : result unit) :
  parse_timestamps w snapshots = Ok ts →
  prune_snapshots w btrfs now dir snapshots st = (r, st') →
  ∃ keep n,
    keep_timestamps now ts = Ok keep ∧
    messages st' = messages st ∧
    history st' =
      history st ++
      take n ((λ s, Run [btrfs; "subvolume"; "delete"; pathjoin dir s] None None)
              <$> (filter (λ st, st.2 ∉ keep) (zip snapshots ts)).*1) ∧
    (r = Ok tt →
     history st' =
       history st ++
       ((λ s, Run [btrfs; "subvolume"; "delete"; pathjoin dir s] None None)
        <$> (filter (λ st, st.2 ∉ keep) (zip snapshots ts)).*1)).
Proof.
  intros Hparse Hrun. unfold prune_snapshots in Hrun.
  rewrite bind_lift, Hparse, bind_lift in Hrun.
  destruct (select_total wanted_snapshots now ts) as [keep Hk].
  unfold keep_timestamps in *. rewrite Hk in Hrun.
  destruct (delete_unkept_calls w btrfs dir keep snapshots ts
              (parse_timestamps_Forall2 _ _ _ Hparse) _ _ _ Hrun)
    as (Hm & n & Hh & Hall).
  exists keep, n. auto.
Qed.

Lemma prune_snapshots_deletes_unkept_witness :
  ∃ keep n,
    keep_timestamps 1000000 [913000; 2000000; 999900; 3000000] = Ok keep ∧
    messages
      (State []
         [Run ["/usr/bin/btrfs"; "subvolume"; "delete"; "/@snapshots/srv-2000000"]
            None None;
          Run ["/usr/bin/btrfs"; "subvolume"; "delete"; "/@snapshots/srv-3000000"]
            None None])
      = messages initial ∧
    history
      (State []
         [Run ["/usr/bin/btrfs"; "subvolume"; "delete"; "/@snapshots/srv-2000000"]
            None None;
          Run ["/usr/bin/btrfs"; "subvolume"; "delete"; "/@snapshots/srv-3000000"]
            None None])
      = history initial ++
        take n ((λ s, Run ["/usr/bin/btrfs"; "subvolume"; "delete";
                           pathjoin "/@snapshots" s] None None)
                <$> (filter (λ st, st.2 ∉ keep)
                       (zip ["srv-913000"; "srv-2000000"; "srv-999900"; "srv-3000000"]
                          [913000; 2000000; 999900; 3000000])).*1) ∧
    (Ok tt = Ok tt →
     history
       (State []
          [Run ["/usr/bin/btrfs"; "subvolume"; "delete"; "/@snapshots/srv-2000000"]
             None None;
           Run ["/usr/bin/btrfs"; "subvolume"; "delete"; "/@snapshots/srv-3000000"]
             None None])
       = history initial ++
         ((λ s, Run ["/usr/bin/btrfs"; "subvolume"; "delete";
                     pathjoin "/@snapshots" s] None None)
          <$> (filter (λ st, st.2 ∉ keep)
                 (zip ["srv-913000"; "srv-2000000"; "srv-999900"; "srv-3000000"]
                    [913000; 2000000; 999900; 3000000])).*1)).
Proof.
  apply (prune_snapshots_deletes_unkept (pruning_world 0) "/usr/bin/btrfs" 1000000
           "/@snapshots" ["srv-913000"; "srv-2000000"; "srv-999900"; "srv-3000000"]
           [913000; 2000000; 999900; 3000000] initial _ (Ok tt)).
  - reflexivity.
  - vm_compute. reflexivity.
Defined.

(** X10: a single name whose timestamp cannot be read makes
    [prune_snapshots] raise before anything is deleted. *)
Theorem unreadable_name_deletes_nothing (w : World) (btrfs : string) (now : Z)
    (dir : string) (snapshots : list string) (s : string) (e : exn) (st : state) :
  s ∈ snapshots → snapshot_timestamp w s = Raise e →
  ∃ e', prune_snapshots w btrfs now dir snapshots st = (Raise e', st).
Proof.
  intros Hin Hs. destruct (parse_timestamps_Raise w snapshots s e Hin Hs) as [e' He].
  exists e'. unfold prune_snapshots. by rewrite bind_lift, He.
Qed.

Lemma unreadable_name_deletes_nothing_witness :
  ∃ e', prune_snapshots (sample_world 0) "/usr/bin/btrfs" 1000000 "/@snapshots"
          ["srv-999900"; "home.old"; "srv-913000"] initial = (Raise e', initial).
Proof.
  apply (unreadable_name_deletes_nothing (sample_world 0) "/usr/bin/btrfs" 1000000
           "/@snapshots" ["srv-999900"; "home.old"; "srv-913000"] "home.old"
           ValueError initial).
  - right. left.
  - reflexivity.
Defined.

Example pruning_deletes_snapshots_out_of_reach :
  prune_snapshots (pruning_world 0) "/usr/bin/btrfs" 1000000 "/@snapshots"
    ["srv-913000"; "srv-2000000"; "srv-999900"; "srv-3000000"] initial
  = (Ok tt,
     State []
       [Run ["/usr/bin/btrfs"; "subvolume"; "delete"; "/@snapshots/srv-2000000"]
          None None;
        Run ["/usr/bin/btrfs"; "subvolume"; "delete"; "/@snapshots/srv-3000000"]
          None None]).
Proof. vm_compute. reflexivity. Qed.

Example pruning_stops_at_failed_deletion :
  prune_snapshots (pruning_world 1) "/usr/bin/btrfs" 1000000 "/@snapshots"
    ["srv-913000"; "srv-2000000"; "srv-999900"; "srv-3000000"] initial
  = (Raise (CalledProcessError
              ["/usr/bin/btrfs"; "subvolume"; "delete"; "/@snapshots/srv-2000000"] 1),
     State []
       [Run ["/usr/bin/btrfs"; "subvolume"; "delete"; "/@snapshots/srv-2000000"]
          None None]).
Proof. vm_compute. reflexivity. Qed.

(** ** The first sweep on one target *)

Lemma subvolume_from_mountpoint_inv_Ok w btrfs mp st subvolume st1 :
  subvolume_from_mountpoint w btrfs mp st = (Ok subvolume, st1) →
  is_mountpoint w (history st) mp = true ∧
  (∃ rest, run w (history st ++ [IsMount mp]) [btrfs; "subvolume"; "show"; mp]
             None None = Completed 0 (subvolume :: rest)) ∧
  st1 = State (messages st)
          (history st ++ [IsMount mp; Run [btrfs; "subvolume"; "show"; mp] None None]).
Proof.
  unfold subvolume_from_mountpoint. unfold bind at 1, ask.
  destruct (is_mountpoint w (history st) mp); cbn [negb]; [|discriminate].
  unfold bind. rewrite run_command_eq. cbn [history messages andb].
  destruct (run w _ _ None None) as [rc out|]; [|discriminate].
  destruct (Z.eqb_spec rc 0) as [->|]; cbn [negb]; [|discriminate].
  unfold ret. destruct out as [|line rest]; [discriminate|].
  intros [= <- <-]. rewrite <- app_assoc. eauto.
Qed.

Lemma snapshot_inv_Ok w btrfs mp path st u st1 :
  snapshot w btrfs mp path st = (Ok u, st1) →
  st1 = State (messages st)
          (history st ++ [Run [btrfs; "subvolume"; "snapshot"; "-r"; mp; path] None None]).
Proof.
  unfold snapshot, bind. rewrite run_command_eq.
  destruct (run w _ _ None None) as [rc out|]; [|discriminate].
  cbn [andb]. destruct (negb (rc =? 0)); [discriminate|]. by intros [= <- <-].
Qed.

(** What a target's dictionary and the state look like after its step of the
    first sweep, for either kind of file system. *)
Lemma phase1_step_inv_Ok w args now name config st config' st1 :
  phase1_step w args now name config st = (Ok config', st1) →
  ∃ mp repository excludes fs calls,
    Forall (λ c, c = DiskPartitions ∨ ∃ path, c = Realpath path) calls ∧
    config' !! "mountpoint" = Some (PStr mp) ∧
    config' !! "repository" = Some (PStr repository) ∧
    config' !! "excludes" = Some excludes ∧
    config' !! "fstype" = Some (PStr fs) ∧
    config' !! "borg" = Some (PStr (with_borg args)) ∧
    config' !! "nice" = Some (nice_value args) ∧
    (((fs ∉ snapshotable_fstypes) ∧
      config' !! "snapshot" = config !! "snapshot" ∧
      messages st1 = messages st ++ [unsupported_message fs mp] ∧
      history st1 = history st ++ calls) ∨
     ((fs ∈ snapshotable_fstypes) ∧
      ∃ subvolume,
        config' !! "subvolume_name"
          = Some (PStr (subvolume_name_from_subvolume subvolume)) ∧
        config' !! "snapshot"
          = Some (PStr (pathjoin (snapshot_dir args)
                          (subvolume_name_from_subvolume subvolume +:+ "-"
                           +:+ pretty now))) ∧
        messages st1 = messages st ∧
        history st1 =
          history st ++ calls ++
          [IsMount mp;
           Run [with_btrfs args; "subvolume"; "show"; mp] None None;
           Run [with_btrfs args; "subvolume"; "snapshot"; "-r"; mp;
                pathjoin (snapshot_dir args)
                  (subvolume_name_from_subvolume subvolume +:+ "-" +:+ pretty now)]
             None None])).
Proof.
  unfold phase1_step. cbn zeta.
  set (config0 := match config !! "excludes" with
                  | Some _ => config
                  | None => <["excludes":=PList []]> config
                  end).
  assert (Hsnap0 : config0 !! "snapshot" = config !! "snapshot").
  { subst config0. destruct (config !! "excludes"); [done|].
    by rewrite lookup_insert_ne. }
  assert (Hex0 : ∃ excludes, config0 !! "excludes" = Some excludes).
  { subst config0. destruct (config !! "excludes") as [v|] eqn:E; [eauto|].
    rewrite lookup_insert_eq. eauto. }
  destruct Hex0 as [excludes Hex0].
  clearbody config0. intros Hrun.
  apply bind_inv_Ok in Hrun as (v & ? & [Hrepo ->]%lift_inv_Ok & Hrun).
  apply getitem_inv_Ok in Hrepo.
  apply bind_inv_Ok in Hrun as (repo & ? & [->%as_str_inv_Ok ->]%lift_inv_Ok & Hrun).
  apply bind_inv_Ok in Hrun as (config1 & sta & Hresolve & Hrun).
  assert (Hcfg1 : ∃ repository calls,
    config1 !! "repository" = Some (PStr repository) ∧
    config1 !! "excludes" = Some excludes ∧
    config1 !! "snapshot" = config !! "snapshot" ∧
    sta = State (messages st) (history st ++ calls) ∧
    Forall (λ c, c = DiskPartitions ∨ ∃ path, c = Realpath path) calls).
  { destruct (negb (is_absolute repo)).
    - unfold bind, ask, ret in Hresolve. injection Hresolve as <- <-.
      eexists _, [_]. split_and!; [by rewrite lookup_insert_eq
        |by rewrite lookup_insert_ne|by rewrite lookup_insert_ne|done|].
      constructor; [right; eauto|constructor].
    - unfold ret in Hresolve. injection Hresolve as <- <-.
      exists repo, []. split_and!; [done|done|done| |constructor].
      destruct st. cbn. by rewrite app_nil_r. }
  destruct Hcfg1 as (repository & calls & Hrepo1 & Hex1 & Hsnap1 & -> & Hcalls).
  apply bind_inv_Ok in Hrun as (mp & ? & [Hmp ->]%lift_inv_Ok & Hrun).
  apply getitem_inv_Ok in Hmp.
  apply bind_inv_Ok in Hrun as (fs0 & stb & Hfstype & Hrun).
  unfold filesystem_type, bind, ask, lift in Hfstype. cbn in Hfstype.
  injection Hfstype as Hfstype <-.
  apply bind_inv_Ok in Hrun as (mps & ? & [->%as_str_inv_Ok ->]%lift_inv_Ok & Hrun).
  exists mps, repository, excludes, fs0, (calls ++ [DiskPartitions]).
  assert (Hcalls' : Forall (λ c, c = DiskPartitions ∨ ∃ path, c = Realpath path)
                      (calls ++ [DiskPartitions])).
  { apply Forall_app. split; [done|]. constructor; [by left|constructor]. }
  destruct (decide (fs0 ∈ snapshotable_fstypes)) as [Hyes|Hno].
  - rewrite bool_decide_eq_true_2 in Hrun by done.
    apply bind_inv_Ok in Hrun as (subvolume & stc & Hsub & Hrun).
    apply subvolume_from_mountpoint_inv_Ok in Hsub as (_ & _ & ->).
    apply bind_inv_Ok in Hrun as (u & std & Hsnap & Hrun).
    apply snapshot_inv_Ok in Hsnap as ->.
    unfold ret in Hrun. injection Hrun as <- <-.
    split_and!; [done|by rewrite !lookup_insert_ne by done..| | | |].
    + rewrite !lookup_insert_ne by done; by rewrite lookup_insert_eq.
    + rewrite !lookup_insert_ne by done; by rewrite lookup_insert_eq.
    + rewrite !lookup_insert_ne by done; by rewrite lookup_insert_eq.
    + right. split; [done|]. exists subvolume. split_and!.
      * rewrite lookup_insert_ne by done; by rewrite lookup_insert_eq.
      * by rewrite lookup_insert_eq.
      * done.
      * cbn. by rewrite <- !app_assoc.
  - rewrite bool_decide_eq_false_2 in Hrun by done.
    apply bind_inv_Ok in Hrun as ([] & ? & Hrec & Hrun).
    unfold record_message in Hrec. injection Hrec as <-.
    unfold ret in Hrun. injection Hrun as <- <-.
    split_and!; [done|by rewrite !lookup_insert_ne by done..| | | |].
    + rewrite !lookup_insert_ne by done; by rewrite lookup_insert_eq.
    + rewrite lookup_insert_ne by done; by rewrite lookup_insert_eq.
    + by rewrite lookup_insert_eq.
    + left. split_and!; [done|by rewrite !lookup_insert_ne|done|].
      cbn. by rewrite app_assoc.
Qed.

Lemma string_app_nil a b : a +:+ b = "" → a = "" ∧ b = "".
Proof. by destruct a. Qed.

(** A snapshot path lies below the snapshot directory and is not empty. *)
Lemma snapshot_path_below dir subvolume (now : Z) :
  String.prefix dir
    (pathjoin dir (subvolume_name_from_subvolume subvolume +:+ "-" +:+ pretty now))
  = true ∧
  truthy (PStr (pathjoin dir
                  (subvolume_name_from_subvolume subvolume +:+ "-" +:+ pretty now)))
  = true.
Proof.
  destruct (pathjoin_relative dir _ (snapshot_component_relative subvolume now))
    as [-> | ->]; (split; [apply prefix_append|]); cbn [truthy].
  - destruct (String.eqb_spec
                (dir +:+ subvolume_name_from_subvolume subvolume +:+ "-" +:+ pretty now) "")
      as [Hnil|]; [|done].
    apply string_app_nil in Hnil as [_ Hnil].
    by apply string_app_nil in Hnil as [_ Hnil].
  - destruct (String.eqb_spec
                (dir +:+ "/" +:+ subvolume_name_from_subvolume subvolume +:+ "-"
                 +:+ pretty now) "") as [Hnil|]; [|done].
    by apply string_app_nil in Hnil as [_ Hnil].
Qed.

(** X11: for a target whose file system type is snapshotable, a step of the
    first sweep that returns has checked the mount point, asked btrfs for the
    subvolume and taken one read-only snapshot, at a path below the snapshot
    directory that ends in the subvolume's name and the run's time; it has
    recorded no warning, and the backup step then runs [borg create] inside
    that snapshot. *)
Theorem snapshotable_target_backed_up_from_snapshot (w : World) (args : Args)
    (now : Z) (name : string) (config config' : gmap string pyval)
    (st st1 : state) (fs : string) :
  phase1_step w args now name config st = (Ok config', st1) →
  config' !! "fstype" = Some (PStr fs) →
  fs ∈ snapshotable_fstypes →
  ∃ mp subvolume path repository excludes calls,
    path = pathjoin (snapshot_dir args)
             (subvolume_name_from_subvolume subvolume +:+ "-" +:+ pretty now) ∧
    String.prefix (snapshot_dir args) path = true ∧
    config' !! "mountpoint" = Some (PStr mp) ∧
    config' !! "snapshot" = Some (PStr path) ∧
    config' !! "repository" = Some (PStr repository) ∧
    config' !! "excludes" = Some excludes ∧
    messages st1 = messages st ∧
    history st1 =
      history st ++ calls ++
      [IsMount mp;
       Run [with_btrfs args; "subvolume"; "show"; mp] None None;
       Run [with_btrfs args; "subvolume"; "snapshot"; "-r"; mp; path] None None] ∧
    Forall (λ c, ∀ command cwd repo, c ≠ Run command cwd repo) calls ∧
    ∀ items st2, as_items excludes = Ok items →
      backup w name config' (default PNone (config' !! "snapshot")) st2 =
      (match run w (history st2)
               (backup_command (with_borg args) items (truthy (nice_value args)))
               (Some path) (Some repository) with
       | Completed returncode _ => Ok (returncode =? 0)
       | NotStarted => Raise OSError
       end,
       State (messages st2)
         (history st2 ++
          [Run (backup_command (with_borg args) items (truthy (nice_value args)))
             (Some path) (Some repository)])).
Proof.
  intros Hrun Hfs Hyes.
  apply phase1_step_inv_Ok in Hrun
    as (mp & repository & excludes & fs0 & calls & Hcalls & Hmp & Hrepo & Hex &
        Hfs0 & Hborg & Hnice & Hbranch).
  rewrite Hfs0 in Hfs. injection Hfs as ->.
  destruct Hbranch as [[Hno _]|(_ & subvolume & _ & Hsnap & Hmsg & Hhist)]; [done|].
  destruct (snapshot_path_below (snapshot_dir args) subvolume now) as [Hbelow Htruthy].
  eexists mp, subvolume, _, repository, excludes, calls.
  split_and!; [reflexivity|done|done|done|done|done|done|done| |].
  - eapply Forall_impl; [exact Hcalls|].
    intros c [->|[path ->]] command cwd repo; discriminate.
  - intros items st2 Hitems. rewrite Hsnap. cbn [default].
    set (path := pathjoin (snapshot_dir args)
                   (subvolume_name_from_subvolume subvolume +:+ "-" +:+ pretty now))
      in *.
    apply (backup_eq w name config' (PStr path) (PStr mp) repository (with_borg args)
             excludes items (nice_value args) path); try done.
    by rewrite Htruthy.
Qed.

Lemma snapshotable_target_backed_up_from_snapshot_witness :
  ∃ config' st1 path,
    phase1_step (sample_world 0) sample_args 1000000 "srv" srv_config initial
      = (Ok config', st1) ∧
    config' !! "snapshot" = Some (PStr path) ∧
    String.prefix "/@snapshots" path = true ∧
    messages st1 = [].
Proof.
  destruct (phase1_step (sample_world 0) sample_args 1000000 "srv" srv_config initial)
    as [[config'|e] st1] eqn:E; [|by vm_compute in E].
  destruct (snapshotable_target_backed_up_from_snapshot (sample_world 0) sample_args
              1000000 "srv" srv_config config' initial st1 "btrfs" E)
    as (mp & subvolume & path & repository & excludes & calls &
        _ & Hbelow & _ & Hsnap & _ & _ & Hmsg & _).
  - vm_compute in E. by injection E as <- <-.
  - left.
  - by exists config', st1, path.
Defined.

(** ** Calls and exceptions of the two sweeps *)

Section Behaves.
Context (P : call → Prop) (E : exn → Prop).

Lemma behaves_ret {A} (a : A) : behaves P E (ret a).
Proof.
  intros st r st' [= <- <-]. split; [|done].
  exists []. by rewrite app_nil_r.
Qed.

Lemma behaves_lift {A} (r : result A) :
  (∀ e, r = Raise e → E e) → behaves P E (lift r).
Proof.
  intros HE st r' st' [= <- <-]. split; [|done].
  exists []. by rewrite app_nil_r.
Qed.

Lemma behaves_raise {A} e : E e → behaves P E (raise (A:=A) e).
Proof. intros He. apply behaves_lift. by intros ? [= <-]. Qed.

Lemma behaves_ask {A} c (answer : list call → A) : P c → behaves P E (ask c answer).
Proof.
  intros Hc st r st' [= <- <-]. split; [|done].
  exists [c]. split; [done|]. by constructor.
Qed.

Lemma behaves_record_message m : behaves P E (record_message m).
Proof.
  intros st r st' [= <- <-]. split; [|done].
  exists []. by rewrite app_nil_r.
Qed.

Lemma behaves_bind {A B} (m : M A) (k : A → M B) :
  behaves P E m → (∀ a, behaves P E (k a)) → behaves P E (bind m k).
Proof.
  intros Hm Hk st r st'. unfold bind.
  destruct (m st) as [[a|e] st1] eqn:Hrun.
  - destruct (Hm _ _ _ Hrun) as [(calls & Hh & Hc) _]. intros Hrun'.
    destruct (Hk a _ _ _ Hrun') as [(calls' & Hh' & Hc') HE]. split; [|done].
    exists (calls ++ calls'). split; [by rewrite Hh', Hh, app_assoc|].
    by apply Forall_app.
  - intros [= <- <-]. destruct (Hm _ _ _ Hrun) as [Hcalls HE].
    split; [done|]. intros e' [= <-]. by apply HE.
Qed.

Lemma behaves_bind_lift {A B} (r : result A) (k : A → M B) :
  (∀ e, r = Raise e → E e) → (∀ a, r = Ok a → behaves P E (k a)) →
  behaves P E (bind (lift r) k).
Proof.
  intros HE Hk st r' st'. rewrite bind_lift. destruct r as [a|e].
  - by apply Hk.
  - intros [= <- <-]. split; [|intros ? [= <-]; by apply HE].
    exists []. by rewrite app_nil_r.
Qed.

Lemma behaves_run_command w check command cwd repo :
  P (Run command cwd repo) → E OSError →
  (∀ returncode, E (CalledProcessError command returncode)) →
  behaves P E (run_command w check command cwd repo).
Proof.
  intros Hc Hos Hcpe st r st'. rewrite run_command_eq. intros [= <- <-].
  split; [exists [Run command cwd repo]; split; [done|by constructor]|].
  intros e. destruct (run w _ _ _ _) as [rc out|]; [|by intros [= <-]].
  destruct (check && negb (rc =? 0)); [|done]. by intros [= <-].
Qed.

End Behaves.

Lemma behaves_weaken (P P' : call → Prop) (E E' : exn → Prop) {A} (k : M A) :
  (∀ c, P c → P' c) → (∀ e, E e → E' e) → behaves P E k → behaves P' E' k.
Proof.
  intros HP HE Hk st r st' Hrun.
  destruct (Hk _ _ _ Hrun) as [(calls & Hh & Hc) He]. split; [|by auto].
  exists calls. split; [done|]. by eapply Forall_impl.
Qed.

Lemma filesystem_type_of_inv_Raise partitions mp e :
  filesystem_type_of partitions mp = Raise e → ∀ key, e ≠ KeyError key.
Proof.
  unfold filesystem_type_of. destruct (negb _); [by intros [= <-]|].
  destruct (matching_partitions partitions mp); [by intros [= <-]|done].
Qed.

(** The first sweep makes no [borg] run, and the only keys it can miss are
    [repository] and [mountpoint]. *)
Lemma phase1_step_behaves w args now name config :
  behaves (λ c, is_borg_run c = false)
    (λ e, ∀ key, e = KeyError key → key = "repository" ∨ key = "mountpoint")
    (phase1_step w args now name config).
Proof.
  unfold phase1_step. cbn zeta.
  apply behaves_bind_lift.
  { intros e ->%getitem_inv_Raise key [= <-]. by left. }
  intros repository _. apply behaves_bind_lift.
  { by intros e ->%as_str_inv_Raise key. }
  intros repo _. apply behaves_bind.
  { destruct (negb (is_absolute repo)); [|apply behaves_ret].
    apply behaves_bind; [by apply behaves_ask|]. intros ?. apply behaves_ret. }
  intros config1. apply behaves_bind_lift.
  { intros e ->%getitem_inv_Raise key [= <-]. by right. }
  intros mp _. apply behaves_bind.
  { unfold filesystem_type. apply behaves_bind; [by apply behaves_ask|].
    intros partitions. apply behaves_lift.
    intros e He key ->. by destruct (filesystem_type_of_inv_Raise _ _ _ He key). }
  intros fs. apply behaves_bind_lift.
  { by intros e ->%as_str_inv_Raise key. }
  intros mps _. destruct (bool_decide (fs ∈ snapshotable_fstypes)).
  - apply behaves_bind.
    { unfold subvolume_from_mountpoint.
      apply behaves_bind; [by apply behaves_ask|]. intros mounted.
      destruct (negb mounted); [by apply behaves_raise|].
      apply behaves_bind; [by apply behaves_run_command|].
      intros shown. destruct (snd shown); [by apply behaves_raise|apply behaves_ret]. }
    intros subvolume. apply behaves_bind; [|intros ?; apply behaves_ret].
    unfold snapshot. apply behaves_bind; [by apply behaves_run_command|].
    intros ?. apply behaves_ret.
  - apply behaves_bind; [apply behaves_record_message|]. intros ?. apply behaves_ret.
Qed.

Lemma phase1_behaves w args now config :
  behaves (λ c, is_borg_run c = false)
    (λ e, ∀ key, e = KeyError key → key = "repository" ∨ key = "mountpoint")
    (phase1 w args now config).
Proof.
  induction config as [|[name backup_config] rest IH]; cbn [phase1].
  - apply behaves_ret.
  - apply behaves_bind.
    { destruct (skipped args name); [apply behaves_ret|apply phase1_step_behaves]. }
    intros ?. apply behaves_bind; [exact IH|]. intros ?. apply behaves_ret.
Qed.

Lemma behaves_bind_ask (P : call → Prop) (E : exn → Prop) {A B} c
    (answer : list call → A) (k : A → M B) :
  P c → (∀ h, behaves P E (k (answer h))) → behaves P E (bind (ask c answer) k).
Proof.
  intros Hc Hk st r st'. unfold bind, ask. intros Hrun.
  destruct (Hk _ _ _ _ Hrun) as [(calls & Hh & Hcalls) HE]. split; [|done].
  exists (c :: calls). cbn in Hh. rewrite Hh, <- app_assoc. split; [done|].
  by constructor.
Qed.

Lemma getitem_is_Some config key e :
  is_Some (config !! key) → getitem config key = Raise e → False.
Proof. unfold getitem. by intros [v ->]. Qed.

Lemma parse_timestamps_inv_Raise w snapshots e :
  (∀ s e, snapshot_timestamp w s = Raise e → e = ValueError) →
  parse_timestamps w snapshots = Raise e → e = ValueError.
Proof.
  intros Hlib. induction snapshots as [|s rest IH]; cbn; [done|].
  destruct (snapshot_timestamp w s) as [t|e'] eqn:Hs.
  - destruct (parse_timestamps w rest); [done|]. intros [= <-]. by apply IH.
  - intros [= <-]. by eapply Hlib.
Qed.

Section SecondSweep.
Context (w : World) (args : Args) (now : Z).

Local Abbreviation no_snapshot := (λ c, is_snapshot_run c = false).
Local Abbreviation no_missing_key config :=
  (λ e, library_errors w → resolved config → ∀ key, e ≠ KeyError key).

Ltac key_present :=
  let e := fresh "e" in let He := fresh "He" in
  let Hres := fresh "Hres" in let Hkeys := fresh "Hkeys" in
  intros e He _ Hres ? ->; destruct Hres as [Hkeys _];
  rewrite Forall_forall in Hkeys;
  eapply getitem_is_Some; [apply Hkeys|exact He];
  repeat first [apply list_elem_of_here | apply list_elem_of_further].

Lemma backup_behaves name config snapshot_path :
  behaves no_snapshot (no_missing_key config) (backup w name config snapshot_path).
Proof.
  unfold backup.
  apply behaves_bind_lift; [key_present|]. intros mp _.
  apply behaves_bind_lift; [key_present|]. intros repository _. cbn zeta.
  apply behaves_bind_lift; [key_present|]. intros borg _.
  apply behaves_bind_lift; [key_present|]. intros excludes _.
  apply behaves_bind_lift; [by intros e ->%as_items_inv_Raise ? ? key|]. intros items _.
  apply behaves_bind_lift; [key_present|]. intros nicev _.
  apply behaves_bind_lift; [by intros e ->%as_str_inv_Raise ? ? key|]. intros borg' _.
  apply behaves_bind_lift; [by intros e ->%as_str_inv_Raise ? ? key|]. intros repo _.
  apply behaves_bind_lift; [by intros e ->%as_str_inv_Raise ? ? key|]. intros source _.
  apply behaves_bind; [by apply behaves_run_command|]. intros ?. apply behaves_ret.
Qed.

Lemma prune_backups_behaves name config :
  behaves no_snapshot (no_missing_key config) (prune_backups w name config).
Proof.
  unfold prune_backups.
  apply behaves_bind_lift; [key_present|]. intros mp _.
  apply behaves_bind_lift; [key_present|]. intros repository _.
  apply behaves_bind_lift; [key_present|]. intros borg _.
  apply behaves_bind_lift; [key_present|]. intros nicev _.
  apply behaves_bind_lift; [by intros e ->%as_str_inv_Raise ? ? key|]. intros borg' _.
  apply behaves_bind_lift; [by intros e ->%as_str_inv_Raise ? ? key|]. intros repo _.
  apply behaves_bind; [by apply behaves_run_command|]. intros ?. apply behaves_ret.
Qed.

Lemma delete_unkept_behaves config btrfs dir keep snapshots :
  behaves no_snapshot (no_missing_key config) (delete_unkept w btrfs dir keep snapshots).
Proof.
  induction snapshots as [|s rest IH]; cbn [delete_unkept]; [apply behaves_ret|].
  apply behaves_bind_lift.
  { intros e He (Hint & _) _ key ->. by apply Hint in He. }
  intros t _. apply behaves_bind; [|intros ?; exact IH].
  destruct (bool_decide (t ∈ keep)); [apply behaves_ret|].
  apply behaves_bind; [by apply behaves_run_command|]. intros ?. apply behaves_ret.
Qed.

Lemma prune_target_snapshots_behaves config :
  behaves no_snapshot (no_missing_key config) (prune_target_snapshots w args now config).
Proof.
  unfold prune_target_snapshots.
  apply behaves_bind_lift; [key_present|]. intros fs Hfs.
  destruct (bool_decide (fs ∈ PStr <$> snapshotable_fstypes)) eqn:Hsnap;
    [|apply behaves_ret].
  apply behaves_bind_lift.
  { intros e He _ [_ Hsub] key ->. eapply getitem_is_Some; [|exact He].
    eapply Hsub; [by apply getitem_inv_Ok|by apply bool_decide_eq_true in Hsnap]. }
  intros subvolume_name _.
  apply behaves_bind_lift; [by intros e ->%as_str_inv_Raise ? ? key|]. intros sname _.
  apply behaves_bind_lift.
  { intros e He (_ & Hre & _) _ key ->. by apply Hre in He. }
  intros matches _. cbn zeta.
  apply behaves_bind_ask; [done|]. intros h.
  apply behaves_bind_lift.
  { intros e He (_ & _ & Hls) _ key ->. by apply Hls in He. }
  intros filenames _. unfold prune_snapshots.
  apply behaves_bind_lift.
  { intros e He (Hint & _) _ key ->.
    by apply (parse_timestamps_inv_Raise _ _ _ Hint) in He. }
  intros actual _. apply behaves_bind_lift.
  { intros e He. destruct (select_total wanted_snapshots now actual) as [keep Hk].
    unfold keep_timestamps in He. congruence. }
  intros keep _. apply delete_unkept_behaves.
Qed.

Lemma phase2_step_behaves name config :
  behaves no_snapshot (no_missing_key config) (phase2_step w args now name config).
Proof.
  unfold phase2_step. cbn zeta.
  apply behaves_bind; [apply backup_behaves|]. intros succeeded.
  apply behaves_bind.
  { destruct (negb succeeded); [apply behaves_record_message|apply behaves_ret]. }
  intros ?. unfold after_backup.
  apply behaves_bind; [apply prune_backups_behaves|]. intros ?.
  apply prune_target_snapshots_behaves.
Qed.

Lemma phase2_behaves config :
  behaves no_snapshot
    (λ e, library_errors w →
          Forall (λ target, skipped args target.1 = false → resolved target.2) config →
          ∀ key, e ≠ KeyError key)
    (phase2 w args now config).
Proof.
  induction config as [|[name backup_config] rest IH]; cbn [phase2].
  - apply behaves_ret.
  - apply behaves_bind.
    + destruct (skipped args name) eqn:Hskip; [apply behaves_ret|].
      eapply behaves_weaken; [| |apply phase2_step_behaves]; [done|].
      intros e He Hlib Hall. apply He; [done|].
      apply Forall_cons in Hall as [Hc _]. by apply Hc.
    + intros ?. eapply behaves_weaken; [| |exact IH]; [done|].
      intros e He Hlib Hall. apply He; [done|].
      by apply Forall_cons in Hall as [_ ?].
Qed.

End SecondSweep.

(** ** The two sweeps together *)

(** After its step of the first sweep a target's dictionary holds every key
    the second sweep reads. *)
Lemma phase1_step_resolved w args now name config st config' st1 :
  phase1_step w args now name config st = (Ok config', st1) → resolved config'.
Proof.
  intros (mp & repository & excludes & fs & calls & _ & Hmp & Hrepo & Hex & Hfs &
          Hborg & Hnice & Hbranch)%phase1_step_inv_Ok.
  split.
  - repeat (constructor; [eauto|]). constructor.
  - intros fsv Hfsv Hin. rewrite Hfs in Hfsv. injection Hfsv as <-.
    destruct Hbranch as [[Hno _]|(_ & subvolume & Hname & _)]; [|eauto].
    destruct Hno. apply list_elem_of_fmap in Hin as (fs' & [= ->] & Hin). done.
Qed.

(** The first sweep hands on the same targets, under the same names and in
    the same order, a skipped target with its dictionary untouched and any
    other with a resolved one. *)
Lemma phase1_targets w args now config : ∀ st config' st',
  phase1 w args now config st = (Ok config', st') →
  config'.*1 = config.*1 ∧
  Forall2 (λ before after, skipped args before.1 = true → after = before)
    config config' ∧
  Forall (λ target, skipped args target.1 = false → resolved target.2) config'.
Proof.
  induction config as [|[name backup_config] rest IH]; intros st config' st' Hrun.
  - injection Hrun as <- <-. split_and!; constructor.
  - cbn [phase1] in Hrun.
    apply bind_inv_Ok in Hrun as (backup_config' & st1 & Hstep & Hrun).
    apply bind_inv_Ok in Hrun as (rest' & st2 & Hrest & Hrun).
    injection Hrun as <- <-.
    destruct (IH _ _ _ Hrest) as (Hnames & Hsame & Hres).
    split_and!.
    + cbn. by rewrite Hnames.
    + constructor; [|done]. cbn. intros Hskip. rewrite Hskip in Hstep.
      by injection Hstep as <- <-.
    + constructor; [|done]. cbn. intros Hskip. rewrite Hskip in Hstep.
      by eapply phase1_step_resolved.
Qed.

(** X12: the first sweep returns the targets under the same names and in the
    same order, and a target outside the allow-list with its dictionary
    unchanged. *)
Theorem first_sweep_keeps_targets (w : World) (args : Args) (now : Z)
    (config config' : list (string * gmap string pyval)) (st st' : state) :
  phase1 w args now config st = (Ok config', st') →
  config'.*1 = config.*1 ∧
  Forall2 (λ before after, skipped args before.1 = true → after = before)
    config config'.
Proof.
  intros Hrun. destruct (phase1_targets _ _ _ _ _ _ _ Hrun) as (? & ? & _). done.
Qed.

Lemma first_sweep_keeps_targets_witness :
  ∃ config',
    fst (phase1 (sample_world 0)
           {| backup_only := Some ["srv"]; snapshot_dir := "/@snapshots";
              with_borg := "/opt/borg"; with_btrfs := "/usr/bin/btrfs";
              nice := None; backup_dir := "/backup" |}
           1000000 [("home", home_config); ("srv", srv_config)] initial)
      = Ok config' ∧
    config'.*1 = ["home"; "srv"] ∧
    config' !! 0%nat = Some ("home", home_config).
Proof.
  destruct (phase1 (sample_world 0)
              {| backup_only := Some ["srv"]; snapshot_dir := "/@snapshots";
                 with_borg := "/opt/borg"; with_btrfs := "/usr/bin/btrfs";
                 nice := None; backup_dir := "/backup" |}
              1000000 [("home", home_config); ("srv", srv_config)] initial)
    as [[config'|e] st'] eqn:E; [|by vm_compute in E].
  destruct (first_sweep_keeps_targets _ _ _ _ _ _ _ E) as [Hnames Hsame].
  exists config'. split_and!; [done|done|].
  destruct config' as [|target config']; [done|].
  apply Forall2_cons in Hsame as [Hhome _]. by rewrite Hhome.
Defined.

(** X13: in any run of the main program the calls come in two parts, a first
    one without any [borg] run and a second one without any
    [btrfs subvolume snapshot]: no snapshot is taken once a backup has
    started, and when the first sweep raises no backup is made at all. *)
Theorem snapshots_precede_backups (w : World) (args : Args) (now : Z)
    (config : list (string * gmap string pyval)) (st st' : state)
    (r : result unit) :
  main w args now config st = (r, st') →
  ∃ first second,
    history st' = history st ++ first ++ second ∧
    Forall (λ c, is_borg_run c = false) first ∧
    Forall (λ c, is_snapshot_run c = false) second.
Proof.
  unfold main. cbn zeta. unfold bind at 1, ask.
  destruct (is_mountpoint w (history st) (snapshot_dir args)); cbn [negb].
  - unfold bind at 1, ask. cbn [history messages]. unfold bind at 1.
    destruct (phase1 w args now config _) as [[config'|e] st1] eqn:Hfirst;
      destruct (phase1_behaves _ _ _ _ _ _ _ Hfirst) as [(calls & Hh & Hc) _];
      cbn [history] in Hh.
    + intros Hsecond.
      destruct (phase2_behaves _ _ _ _ _ _ _ Hsecond) as [(calls' & Hh' & Hc') _].
      exists ([IsMount (snapshot_dir args); Mkdir (snapshot_dir args)] ++ calls), calls'.
      split_and!; [|by repeat constructor|done].
      rewrite Hh', Hh. by rewrite <- !app_assoc.
    + intros [= <- <-].
      exists ([IsMount (snapshot_dir args); Mkdir (snapshot_dir args)] ++ calls), [].
      split_and!; [|by repeat constructor|constructor].
      rewrite Hh, app_nil_r. by rewrite <- !app_assoc.
  - intros [= <- <-]. exists [IsMount (snapshot_dir args)], [].
    split_and!; [done|by repeat constructor|constructor].
Qed.

Lemma snapshots_precede_backups_witness :
  ∃ first second,
    history (snd (main (sample_world 2) sample_args 1000000
                    [("home", home_config); ("srv", srv_config)] initial))
      = history initial ++ first ++ second ∧
    Forall (λ c, is_borg_run c = false) first ∧
    Forall (λ c, is_snapshot_run c = false) second.
Proof.
  apply (snapshots_precede_backups (sample_world 2) sample_args 1000000
           [("home", home_config); ("srv", srv_config)] initial _
           (fst (main (sample_world 2) sample_args 1000000
                   [("home", home_config); ("srv", srv_config)] initial))).
  by destruct (main _ _ _ _ _).
Defined.

(** X14: a run can miss no key but [repository] and [mountpoint], and it
    misses them in the first sweep, before any [borg] run: every key the
    second sweep reads has been put in place by the first. *)
Theorem missing_key_found_in_first_sweep (w : World) (args : Args) (now : Z)
    (config : list (string * gmap string pyval)) (st st' : state) (key : string) :
  library_errors w →
  main w args now config st = (Raise (KeyError key), st') →
  (key = "repository" ∨ key = "mountpoint") ∧
  ∃ calls, history st' = history st ++ calls ∧
           Forall (λ c, is_borg_run c = false) calls.
Proof.
  intros Hlib. unfold main. cbn zeta. unfold bind at 1, ask.
  destruct (is_mountpoint w (history st) (snapshot_dir args)); cbn [negb];
    [|discriminate].
  unfold bind at 1, ask. cbn [history messages]. unfold bind at 1.
  destruct (phase1 w args now config _) as [[config'|e] st1] eqn:Hfirst.
  - intros Hsecond. exfalso.
    destruct (phase1_targets _ _ _ _ _ _ _ Hfirst) as (_ & _ & Hres).
    destruct (phase2_behaves _ _ _ _ _ _ _ Hsecond) as [_ HE].
    by apply (HE _ eq_refl Hlib Hres key).
  - intros [= -> <-].
    destruct (phase1_behaves _ _ _ _ _ _ _ Hfirst) as [(calls & Hh & Hc) HE].
    split; [by apply (HE _ eq_refl)|].
    exists ([IsMount (snapshot_dir args); Mkdir (snapshot_dir args)] ++ calls).
    cbn [history] in Hh. rewrite Hh, <- !app_assoc. split; [done|].
    by repeat constructor.
Qed.

Lemma sample_world_library_errors rc : library_errors (sample_world rc).
Proof.
  split_and!.
  - intros s e. cbn. repeat case_match; congruence.
  - intros name e. cbn. congruence.
  - intros h dir e. cbn. congruence.
Qed.

Lemma missing_key_found_in_first_sweep_witness :
  ("mountpoint" = "repository" ∨ "mountpoint" = "mountpoint") ∧
  ∃ calls,
    history (State [unsupported_message "ext4" "/home"]
               [IsMount "/@snapshots"; Mkdir "/@snapshots";
                Realpath "/backup/home.borg"; DiskPartitions])
      = history initial ++ calls ∧
    Forall (λ c, is_borg_run c = false) calls.
Proof.
  apply (missing_key_found_in_first_sweep (sample_world 0) sample_args 1000000
           [("home", home_config);
            ("srv", <["repository" := PStr "/backup/srv.borg"]> ∅)] initial).
  - apply sample_world_library_errors.
  - vm_compute. reflexivity.
Defined.

Lemma phase1_filter w args now config : ∀ st,
  phase1 w args now (filter (λ target, skipped args target.1 = false) config) st =
  (match (phase1 w args now config st).1 with
   | Ok config' => Ok (filter (λ target, skipped args target.1 = false) config')
   | Raise e => Raise e
   end,
   (phase1 w args now config st).2).
Proof.
  induction config as [|[name backup_config] rest IH]; intros st; [done|].
  destruct (skipped args name) eqn:Hskip.
  - rewrite filter_cons_False by (cbn; congruence).
    rewrite IH. cbn [phase1]. rewrite Hskip. unfold bind, ret.
    destruct (phase1 w args now rest st) as [[rest'|e] st1]; [|done].
    cbn [fst snd]. by rewrite filter_cons_False by (cbn; congruence).
  - rewrite filter_cons_True by done. cbn [phase1]. rewrite Hskip.
    unfold bind, ret.
    destruct (phase1_step w args now name backup_config st) as [[config1|e] st1];
      [|done].
    rewrite IH.
    destruct (phase1 w args now rest st1) as [[rest'|e] st2]; [|done].
    cbn [fst snd]. by rewrite filter_cons_True by done.
Qed.

Lemma phase2_filter w args now config : ∀ st,
  phase2 w args now (filter (λ target, skipped args target.1 = false) config) st =
  phase2 w args now config st.
Proof.
  induction config as [|[name backup_config] rest IH]; intros st; [done|].
  destruct (skipped args name) eqn:Hskip.
  - rewrite filter_cons_False by (cbn; congruence).
    cbn [phase2]. rewrite Hskip. by rewrite IH.
  - rewrite filter_cons_True by done. cbn [phase2]. rewrite Hskip. unfold bind.
    by destruct (phase2_step w args now name backup_config st) as [[[]|e] st1].
Qed.

(** X15: the targets outside the allow-list play no part in a run: with them
    or without them the main program returns the same, records the same
    warnings and makes the same calls. *)
Theorem skipped_targets_have_no_effect (w : World) (args : Args) (now : Z)
    (config : list (string * gmap string pyval)) (st : state) :
  main w args now (filter (λ target, skipped args target.1 = false) config) st
  = main w args now config st.
Proof.
  unfold main. cbn zeta. unfold bind, ask.
  destruct (negb (is_mountpoint w (history st) (snapshot_dir args))); [done|].
  rewrite phase1_filter.
  destruct (phase1 w args now config _) as [[config'|e] st3]; [|done].
  cbn [fst snd]. apply phase2_filter.
Qed.

(** X16: for one snapshot directory and one subvolume, runs at different
    times snapshot to different paths. *)
Theorem snapshot_paths_differ_by_time (dir subvolume : string) (now1 now2 : Z) :
  pathjoin dir (subvolume_name_from_subvolume subvolume +:+ "-" +:+ pretty now1)
  = pathjoin dir (subvolume_name_from_subvolume subvolume +:+ "-" +:+ pretty now2) →
  now1 = now2.
Proof.
  unfold pathjoin. rewrite !snapshot_component_relative.
  intros Heq. apply (inj pretty).
  destruct (String.eqb dir "" || ends_with_sep dir);
    repeat apply app_string_inj_r in Heq; done.
Qed.

Lemma snapshot_paths_differ_by_time_witness : 1000000 = 1000000.
Proof.
  apply (snapshot_paths_differ_by_time "/@snapshots" "srv" 1000000 1000000).
  reflexivity.
Defined.
